(** * The search-input parser of react-search-input (src/Search.tsx)

    A shallow embedding of [parse] and of the closures it is made of
    ([completeToken], [completeOptionValue], [parseError], the scanning loop
    and the end-of-input block), followed by the properties of the parser.

    JavaScript strings are sequences of UTF-16 code units; a code unit is an
    [N].  The two objects that [parse] uses as dictionaries ([options] and
    [result.options]) are finite maps of own properties, with the two places
    where a plain JavaScript object differs from a dictionary written out.
    A JavaScript exception is a [Throw] of the error monad [Res]. *)

From Stdlib Require Import NArith String Ascii.
From stdpp Require Import gmap.

Local Open Scope N_scope.

(** ** Strings *)

Definition char := N.
Definition jsstring := list char.

(** The UTF-16 form of an ASCII literal, to write examples. *)
Definition js (s : string) : jsstring :=
  map N_of_ascii (list_ascii_of_string s).

Definition QUOTE : char := 34.
Definition BACKSLASH : char := 92.
Definition COLON : char := 58.
Definition SPACE : char := 32.

(** [/\s/.test(c)] for a string [c] of one code unit: the WhiteSpace and
    LineTerminator code points of ECMAScript. *)
Definition is_space (c : char) : bool :=
  bool_decide (c ∈ [9; 10; 11; 12; 13; 32; 160; 5760; 8232; 8233; 8239; 8287;
                    12288; 65279])
  || ((8192 <=? c) && (c <=? 8202)).

(** ** Exceptions *)

Inductive Exn := LogicError | TypeError.

Inductive Res (A : Type) : Type :=
| Ok (a : A)
| Throw (e : Exn).
Arguments Ok {A} a.
Arguments Throw {A} e.

#[global] Instance Res_ret : MRet Res := @Ok.
#[global] Instance Res_bind : MBind Res := fun A B k m =>
  match m with Ok a => k a | Throw e => Throw e end.

(** ** Objects used as dictionaries

    Only own properties are stored.  Assigning to the key [__proto__] of a
    plain object changes its prototype and creates no own property.  The
    method call [o.hasOwnProperty(k)] looks [hasOwnProperty] up on [o]
    first: when [o] has an own property of that name, the value found is not
    a function and the call raises a TypeError. *)

Definition PROTO : jsstring := Eval vm_compute in js "__proto__".
Definition HAS_OWN : jsstring := Eval vm_compute in js "hasOwnProperty".

Definition obj_set {V} (k : jsstring) (v : V) (o : gmap jsstring V)
  : gmap jsstring V :=
  if decide (k = PROTO) then o else <[k:=v]> o.

Definition obj_hasOwnProperty {V} (o : gmap jsstring V) (k : jsstring)
  : Res bool :=
  match o !! HAS_OWN with
  | Some _ => Throw TypeError
  | None => Ok (bool_decide (is_Some (o !! k)))
  end.

(** ** Data model *)

(** The [type] tag of a SearchOption with the payload [parse] reads (the
    choices of an enum).  [default], [title], [description] and
    [suggestionProvider] are not read by [parse]. *)
Inductive OptionType :=
| type_number
| type_string
| type_enum (options : list jsstring)
| type_boolean.

Module SearchOption.
Record t := mk {
  name : jsstring;
  multiple : option bool;   (* [multiple?: boolean] *)
  type : OptionType
}.
End SearchOption.

(** Truthiness of [option.multiple]: [undefined] is falsy. *)
Definition is_multiple (o : SearchOption.t) : bool :=
  match SearchOption.multiple o with
  | Some b => b
  | None => false
  end.

Inductive TokenType :=
| Space | Text | Numeric | Enum | OptionName | InvalidOptionName
| EscapeSequence | InvalidEscapeSequence | MissingQuote | MissingOptionValue
| Invalid.

#[global] Instance TokenType_eq_dec : EqDecision TokenType.
Proof. solve_decision. Defined.

(** [suggest: "none" | "options" | SearchOption].  The third case is
    written [currentOption as SearchOption] in the source, a cast that lets
    [null] through: the payload is the nullable [currentOption]. *)
Inductive Suggest :=
| suggest_none
| suggest_options
| suggest_option (o : option SearchOption.t).

Module Token.
Record t := mk {
  type : TokenType;
  content : jsstring;
  suggest : Suggest
}.
End Token.

(** [value: any] holds a boolean, a string, or the number
    [Number(literal)]; the number is an IEEE double and is kept as the
    literal it was converted from. *)
Inductive Value :=
| VBool (b : bool)
| VString (s : jsstring)
| VNumber (literal : jsstring).

(** [{value: any} | {values: any[]}] *)
Inductive OptionValue :=
| Single (value : Value)
| Multi (values : list Value).

Module SearchParams.
Record t := mk {
  text : list jsstring;
  options : gmap jsstring OptionValue
}.
End SearchParams.

Module ParseError.
Record t := mk {
  position : nat;
  text : jsstring
}.
End ParseError.

Module ParseResult.
Record t := mk {
  tokens : list Token.t;
  error : option ParseError.t;
  result : SearchParams.t
}.
End ParseResult.

(** [escapeSequences], read with [currentChar in escapeSequences]: the
    inherited properties of the table all have names longer than one code
    unit, so for a one-unit key [in] is the own-property test. *)
Definition escapeSequences (c : char) : option char :=
  if decide (c = 110) then Some 10            (* n *)
  else if decide (c = QUOTE) then Some QUOTE
  else if decide (c = BACKSLASH) then Some BACKSLASH
  else None.

(** ** [Number(s)] on a string, as far as [isNaN] sees it

    [Number] applied to a string is NaN exactly when the string is not a
    StringNumericLiteral of ECMAScript: optional white space around nothing
    (the number 0), around a signed decimal literal (digits with an
    optional fraction and exponent, or [Infinity]), or around an unsigned
    binary, octal or hexadecimal integer literal. *)

Definition is_digit (c : char) : bool := (48 <=? c) && (c <=? 57).
Definition is_binary_digit (c : char) : bool := (48 <=? c) && (c <=? 49).
Definition is_octal_digit (c : char) : bool := (48 <=? c) && (c <=? 55).
Definition is_hex_digit (c : char) : bool :=
  is_digit c || ((97 <=? c) && (c <=? 102)) || ((65 <=? c) && (c <=? 70)).

Definition digits_of (p : char → bool) (s : jsstring) : bool :=
  match s with
  | [] => false
  | _ => forallb p s
  end.

Fixpoint skip_digits (s : jsstring) : jsstring :=
  match s with
  | c :: s' => if is_digit c then skip_digits s' else s
  | [] => []
  end.

Definition starts_with_digit (s : jsstring) : bool :=
  match s with
  | c :: _ => is_digit c
  | [] => false
  end.

Definition SignedInteger (s : jsstring) : bool :=
  match s with
  | c :: s' =>
      if bool_decide (c = 43) || bool_decide (c = 45)      (* + - *)
      then digits_of is_digit s'
      else digits_of is_digit s
  | [] => false
  end.

Definition ExponentPart_opt (s : jsstring) : bool :=
  match s with
  | [] => true
  | c :: s' =>
      (bool_decide (c = 101) || bool_decide (c = 69))      (* e E *)
      && SignedInteger s'
  end.

Definition StrUnsignedDecimalLiteral (s : jsstring) : bool :=
  bool_decide (s = js "Infinity")
  || match skip_digits s with
     | c :: r =>
         if bool_decide (c = 46)                           (* . *)
         then (starts_with_digit s || starts_with_digit r)
              && ExponentPart_opt (skip_digits r)
         else starts_with_digit s && ExponentPart_opt (c :: r)
     | [] => starts_with_digit s
     end.

Definition StrDecimalLiteral (s : jsstring) : bool :=
  match s with
  | c :: s' =>
      if bool_decide (c = 43) || bool_decide (c = 45)
      then StrUnsignedDecimalLiteral s'
      else StrUnsignedDecimalLiteral s
  | [] => false
  end.

Definition NonDecimalIntegerLiteral (s : jsstring) : bool :=
  match s with
  | 48 :: p :: ds =>
      if bool_decide (p = 98) || bool_decide (p = 66)            (* 0b 0B *)
      then digits_of is_binary_digit ds
      else if bool_decide (p = 111) || bool_decide (p = 79)      (* 0o 0O *)
      then digits_of is_octal_digit ds
      else if bool_decide (p = 120) || bool_decide (p = 88)      (* 0x 0X *)
      then digits_of is_hex_digit ds
      else false
  | _ => false
  end.

Fixpoint skip_spaces (s : jsstring) : jsstring :=
  match s with
  | c :: s' => if is_space c then skip_spaces s' else s
  | [] => []
  end.

Definition StringNumericLiteral (s : jsstring) : bool :=
  let t := rev (skip_spaces (rev (skip_spaces s))) in
  bool_decide (t = []) || StrDecimalLiteral t || NonDecimalIntegerLiteral t.

(** [isNaN(Number(s))] *)
Definition isNaN_Number (s : jsstring) : bool := negb (StringNumericLiteral s).

(** ** The variables of [parse] that its closures share *)

Record State := mkState {
  tokens : list Token.t;
  result : SearchParams.t;
  error : option ParseError.t;
  currentTokenText : jsstring;
  currentValue : jsstring;
  inQuotes : bool;
  escaped : bool;
  inOptionValue : bool;
  currentOption : option SearchOption.t
}.

Definition with_tokens (x : list Token.t) (st : State) : State :=
  mkState x (result st) (error st) (currentTokenText st) (currentValue st)
          (inQuotes st) (escaped st) (inOptionValue st) (currentOption st).
Definition with_result (x : SearchParams.t) (st : State) : State :=
  mkState (tokens st) x (error st) (currentTokenText st) (currentValue st)
          (inQuotes st) (escaped st) (inOptionValue st) (currentOption st).
Definition with_error (x : option ParseError.t) (st : State) : State :=
  mkState (tokens st) (result st) x (currentTokenText st) (currentValue st)
          (inQuotes st) (escaped st) (inOptionValue st) (currentOption st).
Definition with_currentTokenText (x : jsstring) (st : State) : State :=
  mkState (tokens st) (result st) (error st) x (currentValue st)
          (inQuotes st) (escaped st) (inOptionValue st) (currentOption st).
Definition with_currentValue (x : jsstring) (st : State) : State :=
  mkState (tokens st) (result st) (error st) (currentTokenText st) x
          (inQuotes st) (escaped st) (inOptionValue st) (currentOption st).
Definition with_inQuotes (x : bool) (st : State) : State :=
  mkState (tokens st) (result st) (error st) (currentTokenText st)
          (currentValue st) x (escaped st) (inOptionValue st)
          (currentOption st).
Definition with_escaped (x : bool) (st : State) : State :=
  mkState (tokens st) (result st) (error st) (currentTokenText st)
          (currentValue st) (inQuotes st) x (inOptionValue st)
          (currentOption st).
Definition with_inOptionValue (x : bool) (st : State) : State :=
  mkState (tokens st) (result st) (error st) (currentTokenText st)
          (currentValue st) (inQuotes st) (escaped st) x (currentOption st).
Definition with_currentOption (x : option SearchOption.t) (st : State)
  : State :=
  mkState (tokens st) (result st) (error st) (currentTokenText st)
          (currentValue st) (inQuotes st) (escaped st) (inOptionValue st) x.

(** [result.text.push(v)] *)
Definition push_text (v : jsstring) (st : State) : State :=
  with_result (SearchParams.mk (SearchParams.text (result st) ++ [v])
                               (SearchParams.options (result st))) st.

(** Replace [result.options]. *)
Definition with_options (o : gmap jsstring OptionValue) (st : State)
  : State :=
  with_result (SearchParams.mk (SearchParams.text (result st)) o) st.

Definition initial : State :=
  mkState [] (SearchParams.mk [] ∅) None [] [] false false false None.

(** ** The closures of [parse] *)

Definition completeToken (type : TokenType) (st : State) : State :=
  let suggest :=
    if inOptionValue st || bool_decide (type = MissingOptionValue)
    then suggest_option (currentOption st)
    else if bool_decide (type = Text) || bool_decide (type = Space)
    then suggest_options
    else suggest_none in
  with_currentTokenText []
    (with_tokens (tokens st ++ [Token.mk type (currentTokenText st) suggest])
                 st).

Definition parseError (position : nat) (text : jsstring) (st : State)
  : State :=
  match error st with
  | None => with_error (Some (ParseError.mk position text)) st
  | Some _ => st
  end.

(** The [if (!invalidValue)] block of [completeOptionValue].  The read
    [result.options[name]] before [.values.push] finds the property that
    was tested or created on the line before; [undefined] or an object
    without [values] would raise a TypeError. *)
Definition storeValue (o : SearchOption.t) (value : Value) (st : State)
  : Res State :=
  let name := SearchOption.name o in
  let options := SearchParams.options (result st) in
  if is_multiple o then
    has ← obj_hasOwnProperty options name;
    let options :=
      if negb has then obj_set name (Multi []) options else options in
    match options !! name with
    | Some (Multi values) =>
        Ok (with_options (<[name := Multi (values ++ [value])]> options) st)
    | _ => Throw TypeError
    end
  else
    Ok (with_options (obj_set name (Single value) options) st).

Definition completeOptionValue (st : State) : Res State :=
  match currentOption st with
  | None => Throw LogicError
  | Some o =>
      st ← (if bool_decide (currentValue st = [])
            then Ok (completeToken MissingOptionValue st)
            else
              (* [value] is [None] when [invalidValue] is set *)
              let '(value, st) :=
                match SearchOption.type o with
                | type_boolean =>
                    if bool_decide (currentValue st = js "yes")
                    then (Some (VBool true), completeToken Enum st)
                    else if bool_decide (currentValue st = js "no")
                    then (Some (VBool false), completeToken Enum st)
                    else (None, completeToken Invalid st)
                | type_string =>
                    (Some (VString (currentValue st)), completeToken Text st)
                | type_number =>
                    if isNaN_Number (currentValue st)
                    then (None, completeToken Invalid st)
                    else (Some (VNumber (currentValue st)),
                          completeToken Numeric st)
                | type_enum options =>
                    if bool_decide (currentValue st ∈ options)
                    then (Some (VString (currentValue st)),
                          completeToken Enum st)
                    else (None, completeToken Invalid st)
                end in
              let st := with_currentValue [] st in
              match value with
              | Some v => storeValue o v st
              | None => Ok st
              end);
      Ok (with_inOptionValue false (with_currentOption None st))
  end.

(** One turn of the [for] loop, at index [i] on the code unit
    [currentChar]; [options] is the table built from [config]. *)
Definition step (options : gmap jsstring SearchOption.t) (i : nat)
    (currentChar : char) (st : State) : Res State :=
  if inQuotes st then
    if escaped st then
      let st := with_currentTokenText (currentTokenText st ++ [currentChar])
                                      st in
      let st :=
        match escapeSequences currentChar with
        | Some decoded =>
            completeToken EscapeSequence
              (with_currentValue (currentValue st ++ [decoded]) st)
        | None =>
            completeToken InvalidEscapeSequence
              (parseError i (js "invalid escape sequence") st)
        end in
      Ok (with_escaped false (with_currentTokenText [] st))
    else if decide (currentChar = QUOTE) then
      let st := with_currentTokenText (currentTokenText st ++ [QUOTE]) st in
      st ← (if inOptionValue st then completeOptionValue st
            else
              let st := completeToken Text st in
              Ok (with_currentValue [] (push_text (currentValue st) st)));
      Ok (with_inQuotes false st)
    else if decide (currentChar = BACKSLASH) then
      Ok (with_escaped true
            (with_currentTokenText [BACKSLASH] (completeToken Text st)))
    else
      Ok (with_currentValue (currentValue st ++ [currentChar])
            (with_currentTokenText (currentTokenText st ++ [currentChar])
                                   st))
  else if inOptionValue st then
    if decide (currentChar = QUOTE) then
      if bool_decide (currentTokenText st = []) then
        Ok (with_currentTokenText [QUOTE] (with_inQuotes true st))
      else
        st ← completeOptionValue
               (parseError i (js "unexpected quotation mark") st);
        Ok (completeToken Invalid (with_currentTokenText [QUOTE] st))
    else if is_space currentChar then
      st ← completeOptionValue st;
      Ok (completeToken Space (with_currentTokenText [SPACE] st))
    else if decide (currentChar = BACKSLASH) then
      st ← completeOptionValue
             (parseError i (js "unexpected escape character") st);
      Ok (completeToken Invalid (with_currentTokenText [BACKSLASH] st))
    else if decide (currentChar = COLON) then
      st ← completeOptionValue
             (parseError i (js "unexpected colon character") st);
      Ok (completeToken Invalid (with_currentTokenText [COLON] st))
    else
      Ok (with_currentValue (currentValue st ++ [currentChar])
            (with_currentTokenText (currentTokenText st ++ [currentChar])
                                   st))
  else
    if is_space currentChar then
      let st :=
        if negb (bool_decide (currentTokenText st = [])) then
          let st := completeToken Text st in
          push_text (currentValue st) st
        else st in
      Ok (with_currentValue []
            (completeToken Space (with_currentTokenText [SPACE] st)))
    else if decide (currentChar = QUOTE) then
      if bool_decide (currentTokenText st = []) then
        Ok (with_currentTokenText [QUOTE] (with_inQuotes true st))
      else
        let st := parseError i (js "unexpected quotation mark") st in
        let st := completeToken Text st in
        Ok (completeToken Invalid (with_currentTokenText [QUOTE] st))
    else if decide (currentChar = BACKSLASH) then
      let st := parseError i (js "unexpected escape character") st in
      Ok (completeToken Invalid (with_currentTokenText [BACKSLASH] st))
    else if decide (currentChar = COLON) then
      let st := with_currentTokenText (currentTokenText st ++ [COLON]) st in
      if bool_decide (currentValue st = []) then
        Ok (completeToken Invalid
              (parseError i (js "unexpected colon character") st))
      else
        known ← obj_hasOwnProperty options (currentValue st);
        st ← (if (known : bool) then
                match options !! currentValue st with
                | None => Throw TypeError   (* [undefined.multiple] *)
                | Some o =>
                    repeated ← (if negb (is_multiple o)
                                then obj_hasOwnProperty
                                       (SearchParams.options (result st))
                                       (currentValue st)
                                else Ok false);
                    if (repeated : bool) then
                      Ok (parseError i (js "illegally repeated option")
                            (completeToken InvalidOptionName st))
                    else
                      Ok (with_inOptionValue true
                            (with_currentOption (Some o)
                               (completeToken OptionName st)))
                end
              else
                Ok (parseError i (js "unknown option")
                      (completeToken InvalidOptionName st)));
        Ok (with_currentValue [] st)
    else
      Ok (with_currentValue (currentValue st ++ [currentChar])
            (with_currentTokenText (currentTokenText st ++ [currentChar])
                                   st)).

(** The [for] loop from index [i] over the rest [s] of [str]. *)
Fixpoint loop (options : gmap jsstring SearchOption.t) (i : nat)
    (s : jsstring) (st : State) : Res State :=
  match s with
  | [] => Ok st
  | currentChar :: s' =>
      st ← step options i currentChar st;
      loop options (S i) s' st
  end.

(** The block after the loop; [len] is [str.length]. *)
Definition finish (len : nat) (st : State) : Res State :=
  if inQuotes st then
    let st := completeToken Text st in
    st ← (if inOptionValue st then completeOptionValue st
          else Ok (push_text (currentValue st) st));
    Ok (completeToken MissingQuote
          (parseError len (js "missing quotation mark") st))
  else if inOptionValue st then
    completeOptionValue st
  else
    if negb (bool_decide (currentValue st = []))
    then Ok (completeToken Text (push_text (currentValue st) st))
    else Ok st.

(** [for (const option of config) options[option.name] = option] *)
Definition make_options (config : list SearchOption.t)
  : gmap jsstring SearchOption.t :=
  fold_left (λ options option, obj_set (SearchOption.name option) option
                                       options)
            config ∅.

Definition parse (str : jsstring) (config : list SearchOption.t)
  : Res ParseResult.t :=
  st ← loop (make_options config) 0 str initial;
  st ← finish (length str) st;
  Ok (ParseResult.mk (tokens st) (error st) (result st)).

(** ** Specification-side definitions *)

(** Value coercion, as a function of the option and the raw value: the
    type of the completed token and the typed value, [None] on rejection. *)
Definition coerce (o : SearchOption.t) (raw : jsstring)
  : TokenType * option Value :=
  match SearchOption.type o with
  | type_boolean =>
      if bool_decide (raw = js "yes") then (Enum, Some (VBool true))
      else if bool_decide (raw = js "no") then (Enum, Some (VBool false))
      else (Invalid, None)
  | type_string => (Text, Some (VString raw))
  | type_number =>
      if StringNumericLiteral raw then (Numeric, Some (VNumber raw))
      else (Invalid, None)
  | type_enum choices =>
      if bool_decide (raw ∈ choices) then (Enum, Some (VString raw))
      else (Invalid, None)
  end.

(** Result assembly: the value sequence of a multiple option grows at its
    end, a non-multiple option is set. *)
Definition values_of (v : option OptionValue) : list Value :=
  match v with
  | Some (Multi values) => values
  | _ => []
  end.

Definition store (o : SearchOption.t) (v : Value)
    (options : gmap jsstring OptionValue) : gmap jsstring OptionValue :=
  let name := SearchOption.name o in
  if is_multiple o
  then <[name := Multi (values_of (options !! name) ++ [v])]> options
  else <[name := Single v]> options.

Definition is_Multi (v : OptionValue) : bool :=
  match v with
  | Multi _ => true
  | Single _ => false
  end.

(** Every entry of the table is filed under its own name, comes from the
    schema, and no entry is filed under [__proto__]. *)
Definition Table (config : list SearchOption.t)
    (options : gmap jsstring SearchOption.t) : Prop :=
  ∀ k o, options !! k = Some o →
         SearchOption.name o = k ∧ k ≠ PROTO ∧ o ∈ config.

(** What [completeOptionValue] does to the state when the option it
    completes is consistent with the values stored so far: the type of the
    token it completes, the values it leaves in [result.options], and the
    state. *)
Definition completed_type (o : SearchOption.t) (st : State) : TokenType :=
  if bool_decide (currentValue st = []) then MissingOptionValue
  else fst (coerce o (currentValue st)).

Definition stored_options (o : SearchOption.t) (st : State)
  : gmap jsstring OptionValue :=
  let options := SearchParams.options (result st) in
  if bool_decide (currentValue st = []) then options
  else match snd (coerce o (currentValue st)) with
       | Some v => store o v options
       | None => options
       end.

Definition optionValueCompleted (o : SearchOption.t) (st : State) : State :=
  with_inOptionValue false
    (with_currentOption None
       (with_options (stored_options o st)
          (with_currentValue [] (completeToken (completed_type o st) st)))).

(** ** Invariants of the scan *)

(** The suggest hint of a token in the output: a schema entry of the
    table, or [options] on a Text or Space token, or [none] on a token of
    another type that is not a MissingOptionValue. *)
Definition hint_ok (options : gmap jsstring SearchOption.t) (t : Token.t)
  : Prop :=
  match Token.suggest t with
  | suggest_option None => False
  | suggest_option (Some o) => options !! SearchOption.name o = Some o
  | suggest_options => Token.type t = Text ∨ Token.type t = Space
  | suggest_none =>
      Token.type t ≠ Text ∧ Token.type t ≠ Space
      ∧ Token.type t ≠ MissingOptionValue
  end.

Definition space_ok (t : Token.t) : Prop :=
  Token.type t = Space → Token.content t = [SPACE].

Record WF (options : gmap jsstring SearchOption.t) (st : State) : Prop := {
  wf_mode : inOptionValue st = true → is_Some (currentOption st);
  wf_current : ∀ o, currentOption st = Some o →
      options !! HAS_OWN = None
      ∧ options !! SearchOption.name o = Some o
      ∧ (is_multiple o = false →
         SearchParams.options (result st) !! SearchOption.name o = None);
  wf_stored : ∀ k v, SearchParams.options (result st) !! k = Some v →
      options !! HAS_OWN = None
      ∧ ∃ o, options !! k = Some o ∧ is_Multi v = is_multiple o;
  wf_tokens : Forall (λ t, hint_ok options t ∧ space_ok t) (tokens st)
}.

(** ** The transitions of the scanner

    One constructor for each path through the body of the loop, with the
    condition under which it is taken and the state it leaves.  The paths
    through [completeOptionValue] are given for a state whose current
    option is set; [step_Step] shows that on well-formed states the loop
    body takes exactly these transitions. *)

Definition accumulate (c : char) (st : State) : State :=
  with_currentValue (currentValue st ++ [c])
    (with_currentTokenText (currentTokenText st ++ [c]) st).

Definition emit (type : TokenType) (text : jsstring) (st : State) : State :=
  completeToken type (with_currentTokenText text st).

Inductive Step (options : gmap jsstring SearchOption.t) (i : nat) (c : char)
    (st : State) : Res State → Prop :=
| Step_escape decoded :
    inQuotes st = true → escaped st = true →
    escapeSequences c = Some decoded →
    Step options i c st
      (Ok (with_escaped false
             (emit EscapeSequence (currentTokenText st ++ [c])
                (with_currentValue (currentValue st ++ [decoded]) st))))
| Step_invalid_escape :
    inQuotes st = true → escaped st = true →
    escapeSequences c = None →
    Step options i c st
      (Ok (with_escaped false
             (emit InvalidEscapeSequence (currentTokenText st ++ [c])
                (parseError i (js "invalid escape sequence") st))))
| Step_close_value o :
    inQuotes st = true → escaped st = false → c = QUOTE →
    inOptionValue st = true → currentOption st = Some o →
    Step options i c st
      (Ok (with_inQuotes false
             (optionValueCompleted o
                (with_currentTokenText (currentTokenText st ++ [QUOTE]) st))))
| Step_close_text :
    inQuotes st = true → escaped st = false → c = QUOTE →
    inOptionValue st = false →
    Step options i c st
      (Ok (with_inQuotes false
             (with_currentValue []
                (push_text (currentValue st)
                   (emit Text (currentTokenText st ++ [QUOTE]) st)))))
| Step_quoted_backslash :
    inQuotes st = true → escaped st = false → c = BACKSLASH →
    Step options i c st
      (Ok (with_escaped true
             (with_currentTokenText [BACKSLASH] (completeToken Text st))))
| Step_quoted_char :
    inQuotes st = true → escaped st = false →
    c ≠ QUOTE → c ≠ BACKSLASH →
    Step options i c st (Ok (accumulate c st))
| Step_value_open_quote :
    inQuotes st = false → inOptionValue st = true → c = QUOTE →
    currentTokenText st = [] →
    Step options i c st
      (Ok (with_currentTokenText [QUOTE] (with_inQuotes true st)))
| Step_value_stray_quote o :
    inQuotes st = false → inOptionValue st = true → c = QUOTE →
    currentTokenText st ≠ [] → currentOption st = Some o →
    Step options i c st
      (Ok (emit Invalid [QUOTE]
             (optionValueCompleted o
                (parseError i (js "unexpected quotation mark") st))))
| Step_value_space o :
    inQuotes st = false → inOptionValue st = true →
    is_space c = true → currentOption st = Some o →
    Step options i c st
      (Ok (emit Space [SPACE] (optionValueCompleted o st)))
| Step_value_backslash o :
    inQuotes st = false → inOptionValue st = true → c = BACKSLASH →
    currentOption st = Some o →
    Step options i c st
      (Ok (emit Invalid [BACKSLASH]
             (optionValueCompleted o
                (parseError i (js "unexpected escape character") st))))
| Step_value_colon o :
    inQuotes st = false → inOptionValue st = true → c = COLON →
    currentOption st = Some o →
    Step options i c st
      (Ok (emit Invalid [COLON]
             (optionValueCompleted o
                (parseError i (js "unexpected colon character") st))))
| Step_value_char :
    inQuotes st = false → inOptionValue st = true →
    c ≠ QUOTE → is_space c = false → c ≠ BACKSLASH → c ≠ COLON →
    Step options i c st (Ok (accumulate c st))
| Step_space :
    inQuotes st = false → inOptionValue st = false →
    is_space c = true → currentTokenText st = [] →
    Step options i c st (Ok (with_currentValue [] (emit Space [SPACE] st)))
| Step_word_space :
    inQuotes st = false → inOptionValue st = false →
    is_space c = true → currentTokenText st ≠ [] →
    Step options i c st
      (Ok (with_currentValue []
             (emit Space [SPACE]
                (push_text (currentValue st) (completeToken Text st)))))
| Step_open_quote :
    inQuotes st = false → inOptionValue st = false → c = QUOTE →
    currentTokenText st = [] →
    Step options i c st
      (Ok (with_currentTokenText [QUOTE] (with_inQuotes true st)))
| Step_stray_quote :
    inQuotes st = false → inOptionValue st = false → c = QUOTE →
    currentTokenText st ≠ [] →
    Step options i c st
      (Ok (emit Invalid [QUOTE]
             (completeToken Text
                (parseError i (js "unexpected quotation mark") st))))
| Step_backslash :
    inQuotes st = false → inOptionValue st = false → c = BACKSLASH →
    Step options i c st
      (Ok (emit Invalid [BACKSLASH]
             (parseError i (js "unexpected escape character") st)))
| Step_empty_colon :
    inQuotes st = false → inOptionValue st = false → c = COLON →
    currentValue st = [] →
    Step options i c st
      (Ok (completeToken Invalid
             (parseError i (js "unexpected colon character")
                (with_currentTokenText (currentTokenText st ++ [COLON])
                                       st))))
| Step_shadowed :
    inQuotes st = false → inOptionValue st = false → c = COLON →
    currentValue st ≠ [] → is_Some (options !! HAS_OWN) →
    Step options i c st (Throw TypeError)
| Step_unknown_option :
    inQuotes st = false → inOptionValue st = false → c = COLON →
    currentValue st ≠ [] → options !! HAS_OWN = None →
    options !! currentValue st = None →
    Step options i c st
      (Ok (with_currentValue []
             (parseError i (js "unknown option")
                (emit InvalidOptionName (currentTokenText st ++ [COLON])
                      st))))
| Step_repeated_option o :
    inQuotes st = false → inOptionValue st = false → c = COLON →
    currentValue st ≠ [] → options !! HAS_OWN = None →
    options !! currentValue st = Some o →
    is_multiple o = false →
    is_Some (SearchParams.options (result st) !! currentValue st) →
    Step options i c st
      (Ok (with_currentValue []
             (parseError i (js "illegally repeated option")
                (emit InvalidOptionName (currentTokenText st ++ [COLON])
                      st))))
| Step_option_name o :
    inQuotes st = false → inOptionValue st = false → c = COLON →
    currentValue st ≠ [] → options !! HAS_OWN = None →
    options !! currentValue st = Some o →
    (is_multiple o = false →
     SearchParams.options (result st) !! currentValue st = None) →
    Step options i c st
      (Ok (with_currentValue []
             (with_inOptionValue true
                (with_currentOption (Some o)
                   (emit OptionName (currentTokenText st ++ [COLON]) st)))))
| Step_char :
    inQuotes st = false → inOptionValue st = false →
    is_space c = false → c ≠ QUOTE → c ≠ BACKSLASH → c ≠ COLON →
    Step options i c st (Ok (accumulate c st)).

(** Outside quotes, raw text is pending only together with a pending
    value. *)
Definition Pending (st : State) : Prop :=
  inQuotes st = false → currentValue st = [] → currentTokenText st = [].

(** The raw text accounted for so far: the contents of the completed
    tokens and the pending raw text. *)
Definition raw (st : State) : jsstring :=
  concat (map Token.content (tokens st)) ++ currentTokenText st.

(** A code unit and what the tokens hold for it: itself, or a space in
    place of a white-space code unit. *)
Definition blanked (c c' : char) : Prop :=
  c' = c ∨ (is_space c = true ∧ c' = SPACE).

(** What the tokens hold for the code unit [c] that the loop reads in the
    state [st]: an ASCII space for white space read outside quotes, the
    code unit itself otherwise, white space inside quotes included. *)
Definition held (c : char) (st : State) : char :=
  if negb (inQuotes st) && is_space c then SPACE else c.

(** The one path of the loop body that assigns to [currentTokenText]
    without completing the token under construction first: a backslash
    outside quotes and outside an option value, while raw text is
    pending. *)
Definition drops_pending (c : char) (st : State) : bool :=
  negb (inQuotes st) && negb (inOptionValue st)
  && bool_decide (c = BACKSLASH)
  && negb (bool_decide (currentTokenText st = [])).

(** The scan of [s] from [st] never takes that path. *)
Fixpoint keeps_pending (options : gmap jsstring SearchOption.t) (i : nat)
    (s : jsstring) (st : State) : bool :=
  match s with
  | [] => true
  | c :: s' =>
      negb (drops_pending c st)
      && match step options i c st with
         | Ok st' => keeps_pending options (S i) s' st'
         | Throw _ => true
         end
  end.

(** The stored values only grow: a single value stays, a value sequence
    is extended at its end. *)
Definition extends (a b : gmap jsstring OptionValue) : Prop :=
  ∀ k, match a !! k with
       | Some (Single v) => b !! k = Some (Single v)
       | Some (Multi values) => ∃ more, b !! k = Some (Multi (values ++ more))
       | None => True
       end.

(** ** Words of the specification *)

(** The input split on runs of white space: its non-empty words, in
    order. *)
Definition starts_word (s : jsstring) : bool :=
  match s with
  | c :: _ => negb (is_space c)
  | [] => false
  end.

Definition extend_first (c : char) (ws : list jsstring) : list jsstring :=
  match ws with
  | w :: ws' => (c :: w) :: ws'
  | [] => [[c]]
  end.

Fixpoint split_whitespace (s : jsstring) : list jsstring :=
  match s with
  | [] => []
  | c :: s' =>
      if is_space c then split_whitespace s'
      else if starts_word s' then extend_first c (split_whitespace s')
      else [c] :: split_whitespace s'
  end.

(** The word that is pending, if any. *)
Definition pending_word (w : jsstring) : list jsstring :=
  if bool_decide (w = []) then [] else [w].

(** The rule for the suggest hint of a completed token. *)
Definition hint_rule (type : TokenType) (st : State) : Suggest :=
  if inOptionValue st then suggest_option (currentOption st)
  else if bool_decide (type = MissingOptionValue)
  then suggest_option (currentOption st)
  else if bool_decide (type ∈ [Text; Space]) then suggest_options
  else suggest_none.

(** A valid decimal numeric literal: an optional sign, then digits with an
    optional fraction and an optional exponent. *)
Definition decimal_literal (s : jsstring) : bool :=
  StrDecimalLiteral s
  && negb (bool_decide (s ∈ [js "Infinity"; js "+Infinity"; js "-Infinity"])).

(** ** Example schemas *)

Definition tag_single : SearchOption.t :=
  SearchOption.mk (js "tag") (Some false) type_string.
Definition tag_multiple : SearchOption.t :=
  SearchOption.mk (js "tag") (Some true) type_string.
Definition count_number : SearchOption.t :=
  SearchOption.mk (js "count") None type_number.
Definition shadowing : SearchOption.t :=
  SearchOption.mk (js "hasOwnProperty") None type_string.

(** The state of the scan of [tag:a tag] with the schema [tag_single]. *)
Definition after_tag_a_tag : State :=
  mkState
    [Token.mk OptionName (js "tag:") suggest_none;
     Token.mk Text (js "a") (suggest_option (Some tag_single));
     Token.mk Space (js " ") suggest_options]
    (SearchParams.mk [] {[ js "tag" := Single (VString (js "a")) ]})
    None (js "tag") (js "tag") false false false None.


(** The state of the scan of an opening quote and [unterminated]. *)
Definition in_unterminated : State :=
  mkState [] (SearchParams.mk [] ∅) None
          (QUOTE :: js "unterminated") (js "unterminated")
          true false false None.

(** The state of the scan of [count:0x10] with the schema
    [count_number]. *)
Definition after_count_0x10 : State :=
  mkState [Token.mk OptionName (js "count:") suggest_none]
          (SearchParams.mk [] ∅) None (js "0x10") (js "0x10")
          false false true (Some count_number).

(** The state of the scan of one backslash. *)
Definition after_backslash : State :=
  mkState [Token.mk Invalid [BACKSLASH] suggest_none]
          (SearchParams.mk [] ∅)
          (Some (ParseError.mk 0 (js "unexpected escape character")))
          [] [] false false false None.

(** ** Errors and the tokens that mark them *)

(** What the message of an error says about the code unit found at the
    index where [parseError] is called in the loop. *)
Definition error_cause (c : char) (text : jsstring) : Prop :=
  (text = js "invalid escape sequence" ∧ escapeSequences c = None)
  ∨ (text = js "unexpected quotation mark" ∧ c = QUOTE)
  ∨ (text = js "unexpected escape character" ∧ c = BACKSLASH)
  ∨ (text ∈ [js "unexpected colon character";
             js "illegally repeated option"; js "unknown option"]
     ∧ c = COLON).

(** An error of [parse] on [str]: the missing quotation mark at the end of
    the input, or an error of the loop at the index of the code unit that
    causes it. *)
Definition error_points_at (str : jsstring) (e : ParseError.t) : Prop :=
  (ParseError.text e = js "missing quotation mark"
   ∧ ParseError.position e = length str)
  ∨ ∃ c, str !! ParseError.position e = Some c
         ∧ error_cause c (ParseError.text e).

(** A token that marks an error: an invalid option name, an invalid
    escape sequence, a missing quote, or an Invalid token that is not a
    rejected option value (its hint is [none]). *)
Definition marks_error (t : Token.t) : bool :=
  bool_decide (Token.type t ∈ [InvalidOptionName; InvalidEscapeSequence;
                               MissingQuote])
  || (bool_decide (Token.type t = Invalid)
      && match Token.suggest t with
         | suggest_none => true
         | _ => false
         end).

Definition has_error (st : State) : bool :=
  match error st with
  | Some _ => true
  | None => false
  end.

(** ** Accepting a suggestion: the text of [suggestionSelect]

    [suggestionSelect] escapes the name of the selected entry, first every
    backslash and then every quote, wraps the result in quotes when it
    holds white space, a quote or a backslash, and writes it into the
    input, which is parsed again. *)

(** The first [replace]: every backslash becomes two. *)
Definition escape_backslashes (val : jsstring) : jsstring :=
  flat_map (λ c, if decide (c = BACKSLASH) then [BACKSLASH; BACKSLASH]
                 else [c]) val.

(** The second [replace]: a backslash goes before every quote. *)
Definition escape_quotes (val : jsstring) : jsstring :=
  flat_map (λ c, if decide (c = QUOTE) then [BACKSLASH; QUOTE] else [c]) val.

(** The test of the regular expression for white space, quote or
    backslash. *)
Definition needs_quotes (val : jsstring) : bool :=
  existsb (λ c, is_space c || bool_decide (c = QUOTE)
                || bool_decide (c = BACKSLASH)) val.

(** The value of [val] when [suggestionSelect] assigns it to
    [el.innerText]. *)
Definition suggestionSelect_text (val : jsstring) : jsstring :=
  let val := escape_quotes (escape_backslashes val) in
  if needs_quotes val then [QUOTE] ++ val ++ [QUOTE] else val.

(** The value that an option keeps of a raw value: none of an empty or
    rejected one. *)
Definition accepted_value (o : SearchOption.t) (raw : jsstring)
  : option Value :=
  if bool_decide (raw = []) then None else snd (coerce o raw).

(** A code unit that the scanner accumulates outside quotes. *)
Definition plain (c : char) : Prop :=
  is_space c = false ∧ c ≠ QUOTE ∧ c ≠ BACKSLASH ∧ c ≠ COLON.

(** Both replacements on one code unit. *)
Definition escape_unit (c : char) : jsstring :=
  if decide (c = BACKSLASH) then [BACKSLASH; BACKSLASH]
  else if decide (c = QUOTE) then [BACKSLASH; QUOTE]
  else [c].

(** ** The suggestion list of the [Search] component *)

Module AutocompleteEntry.
Record t := mk {
  name : jsstring;
  description : option jsstring
}.
End AutocompleteEntry.

(** [AutocompleteState]; [anchor] is an element of the page, of a type
    that is left open. *)
Module AutocompleteState.
Record t (HTMLElement : Type) := mk {
  entries : list AutocompleteEntry.t;
  anchor : HTMLElement;
  token : Token.t;
  selection : Z
}.
Arguments mk {HTMLElement} _ _ _ _.
Arguments entries {HTMLElement} _.
Arguments anchor {HTMLElement} _.
Arguments token {HTMLElement} _.
Arguments selection {HTMLElement} _.
End AutocompleteState.

(** [{...autocomplete, selection}] *)
Definition with_selection {E} (selection : Z) (a : AutocompleteState.t E)
  : AutocompleteState.t E :=
  AutocompleteState.mk (AutocompleteState.entries a)
                       (AutocompleteState.anchor a)
                       (AutocompleteState.token a) selection.

Definition entries_length {E} (a : AutocompleteState.t E) : Z :=
  Z.of_nat (length (AutocompleteState.entries a)).

(** [suggestionUp], [suggestionDown] and [suggestionHover] as functions
    of the state [autocomplete]; the operator [%] on integers is the
    remainder whose sign is that of the dividend, [Z.rem].  With no entry
    JavaScript gives NaN; [handleInput] sets a state only with at least
    one entry. *)
Definition suggestionUp {E} (autocomplete : option (AutocompleteState.t E))
  : option (AutocompleteState.t E) :=
  match autocomplete with
  | Some a =>
      Some (with_selection
              (Z.rem (entries_length a + AutocompleteState.selection a - 1)
                     (entries_length a)) a)
  | None => None
  end.

Definition suggestionDown {E} (autocomplete : option (AutocompleteState.t E))
  : option (AutocompleteState.t E) :=
  match autocomplete with
  | Some a =>
      Some (with_selection
              (Z.rem (entries_length a + AutocompleteState.selection a + 1)
                     (entries_length a)) a)
  | None => None
  end.

Definition suggestionHover {E} (idx : Z)
    (autocomplete : option (AutocompleteState.t E))
  : option (AutocompleteState.t E) :=
  match autocomplete with
  | Some a => Some (with_selection (Z.rem idx (entries_length a)) a)
  | None => None
  end.

(** The selection is an index of an entry. *)
Definition selection_valid {E} (a : AutocompleteState.t E) : Prop :=
  (0 ≤ AutocompleteState.selection a < entries_length a)%Z.

(** ** The token under the caret and its suggestions ([handleInput]) *)

(** What the loop of [handleInput] over [result.tokens] does to
    [currentOffset] and [autocompleteToken]; the length of [content] is
    the length of the content of the token, the replacement of white
    space by U+00A0 keeps it. *)
Fixpoint caret_loop (tokens : list Token.t) (startPos endPos : nat)
    (currentOffset : nat) (autocompleteToken : option Token.t)
  : nat * option Token.t :=
  match tokens with
  | [] => (currentOffset, autocompleteToken)
  | token :: tokens' =>
      let length := length (Token.content token) in
      let autocompleteToken :=
        if (currentOffset <=? endPos)%nat
           && (endPos <? currentOffset + length)%nat
           && (startPos =? endPos)%nat
        then Some token else autocompleteToken in
      caret_loop tokens' startPos endPos (currentOffset + length)%nat
                 autocompleteToken
  end.

(** [autocompleteToken] after the loop and the test that follows it. *)
Definition caret_token (tokens : list Token.t) (startPos endPos : nat)
  : option Token.t :=
  match tokens with
  | [] => None
  | _ =>
      let '(currentOffset, autocompleteToken) :=
        caret_loop tokens startPos endPos 0 None in
      if (currentOffset <=? startPos)%nat then last tokens
      else autocompleteToken
  end.

(** The number of code units that a list of tokens holds. *)
Definition text_length (tokens : list Token.t) : nat :=
  length (concat (map Token.content tokens)).

(** [s.startsWith(prefix)] *)
Definition startsWith (s prefix : jsstring) : bool :=
  bool_decide (prefix `prefix_of` s).

(** [autocompleteEntries] for the token under the caret.  [title] and
    [provider] stand for two fields of an option that [parse] does not
    read: its title and its suggestionProvider.  The provider is code of
    the caller: a call of it gives the suggestions (the value that its
    promise resolves to when it returns one), or it raises (it throws, or
    its promise is rejected and the [await] throws); [handleInput] catches
    nothing, so what the provider raises is raised by the computation.
    Reading [type] of a null hint is a TypeError. *)
Definition autocompleteEntries
    (title : SearchOption.t → option jsstring)
    (provider : SearchOption.t
                → option (jsstring → Res (list AutocompleteEntry.t)))
    (options : list SearchOption.t) (autocompleteToken : Token.t)
  : Res (list AutocompleteEntry.t) :=
  let content := Token.content autocompleteToken in
  match Token.suggest autocompleteToken with
  | suggest_options =>
      Ok (map (λ opt, AutocompleteEntry.mk (SearchOption.name opt ++ [COLON])
                                           (title opt))
              (filter (λ opt,
                         startsWith (SearchOption.name opt) content
                         || match title opt with
                            | Some t => startsWith t content
                            | None => false
                            end = true)
                      options))
  | suggest_none => Ok []
  | suggest_option None => Throw TypeError
  | suggest_option (Some o) =>
      match SearchOption.type o with
      | type_boolean =>
          Ok [AutocompleteEntry.mk (js "yes") None;
              AutocompleteEntry.mk (js "no") None]
      | type_enum choices =>
          Ok (map (λ option, AutocompleteEntry.mk option None)
                  (filter (λ option, startsWith option content = true)
                          choices))
      | type_number | type_string =>
          match provider o with
          | Some suggestionProvider =>
              suggestions ← suggestionProvider content;
              Ok suggestions
          | None => Ok []
          end
      end
  end.

(** The names of a schema that [parse] can recognise when they are
    written without quotes: non-empty, without white space, quote,
    backslash and colon, and neither [hasOwnProperty] nor [__proto__]. *)
Definition plain_names (config : list SearchOption.t) : Prop :=
  ∀ o, o ∈ config →
       SearchOption.name o ≠ [] ∧ Forall plain (SearchOption.name o)
       ∧ SearchOption.name o ≠ HAS_OWN ∧ SearchOption.name o ≠ PROTO.

(** An enum option [k] with three choices, the state of the scan of [k:]
    and [baz] with it, and a provider that raises. *)
Definition k_enum : SearchOption.t :=
  SearchOption.mk (js "k") None (type_enum [js "bar"; js "foo"; js "baz"]).

Definition after_k_baz : State :=
  mkState [Token.mk OptionName (js "k:") suggest_none]
          (SearchParams.mk [] ∅) None (js "baz") (js "baz")
          false false true (Some k_enum).

(** ** The error monad *)

Lemma bind_Ok {A B} (m : Res A) (k : A → Res B) b :
  m ≫= k = Ok b ↔ ∃ a, m = Ok a ∧ k a = Ok b.
Proof.
  destruct m as [a|e]; simpl; split.
  - intros H. by exists a.
  - intros (a' & [= <-] & H). exact H.
  - discriminate.
  - intros (a' & [=] & _).
Qed.

Lemma Ok_bind {A B} (a : A) (k : A → Res B) : Ok a ≫= k = k a.
Proof. done. Qed.

Lemma bind_Throw {A B} (m : Res A) (k : A → Res B) e :
  m ≫= k = Throw e ↔ m = Throw e ∨ ∃ a, m = Ok a ∧ k a = Throw e.
Proof.
  destruct m as [a|e']; simpl; split.
  - intros H. right. by exists a.
  - intros [[=]|(a' & [= <-] & H)]. exact H.
  - intros [= ->]. by left.
  - intros [[= ->]|(a' & [=] & _)]. done.
Qed.

(** ** The table of options *)

Lemma obj_set_lookup {V} (k k' : jsstring) (v : V) (o : gmap jsstring V) :
  obj_set k v o !! k' =
  if decide (k ≠ PROTO ∧ k = k') then Some v else o !! k'.
Proof.
  unfold obj_set. destruct (decide (k = PROTO)) as [->|Hk].
  - rewrite decide_False; [done|]. intros [? _]. done.
  - destruct (decide (k = k')) as [->|Hkk'].
    + rewrite lookup_insert_eq, decide_True; done.
    + rewrite lookup_insert_ne, decide_False; [done| |done]. intros [_ ?]. done.
Qed.

Lemma make_options_Table config : Table config (make_options config).
Proof.
  unfold make_options.
  cut (∀ acc, Table config acc → ∀ l, l ⊆ config →
         Table config
           (fold_left (λ options option,
                         obj_set (SearchOption.name option) option options)
                      l acc)).
  { intros H. apply H; [|done]. intros k o Hk. by rewrite lookup_empty in Hk. }
  intros acc Hacc l. revert acc Hacc.
  induction l as [|x l IH]; intros acc Hacc Hl; simpl; [done|].
  apply IH; [|set_solver].
  intros k o. rewrite obj_set_lookup.
  case_decide as Hd; [|by apply Hacc].
  intros [= <-]. destruct Hd as [? <-]. split_and!; [done|done|set_solver].
Qed.

(** A schema without an option named [hasOwnProperty] leaves the method
    of the table reachable. *)
Lemma make_options_unshadowed config :
  (∀ o, o ∈ config → SearchOption.name o ≠ HAS_OWN) →
  make_options config !! HAS_OWN = None.
Proof.
  intros Hc. destruct (make_options config !! HAS_OWN) as [o|] eqn:E; [|done].
  apply make_options_Table in E as (Hn & _ & Hin). by apply Hc in Hin.
Qed.

(** ** Normal forms of the closures *)

Lemma parseError_eq i t st :
  parseError i t st =
  with_error (Some (default (ParseError.mk i t) (error st))) st.
Proof. unfold parseError. destruct st as [? ? [e|] ? ? ? ? ? ?]; done. Qed.

Lemma storeValue_eq o v st :
  SearchOption.name o ≠ PROTO →
  SearchParams.options (result st) !! HAS_OWN = None →
  (∀ w, SearchParams.options (result st) !! SearchOption.name o = Some w →
        is_Multi w = is_multiple o) →
  storeValue o v st
  = Ok (with_options (store o v (SearchParams.options (result st))) st).
Proof.
  intros Hn Hh Hm. unfold storeValue, store, obj_hasOwnProperty, obj_set.
  rewrite Hh. destruct (is_multiple o) eqn:Em; simpl.
  - case_bool_decide as Hs; simpl.
    + destruct Hs as [w Hw]. rewrite Hw. specialize (Hm _ Hw).
      destruct w; [done|]. done.
    + rewrite decide_False by done. rewrite lookup_insert_eq.
      apply eq_None_not_Some in Hs. rewrite Hs. simpl.
      by rewrite insert_insert_eq.
  - by rewrite decide_False.
Qed.

Lemma completeOptionValue_eq o st :
  currentOption st = Some o →
  SearchOption.name o ≠ PROTO →
  SearchParams.options (result st) !! HAS_OWN = None →
  (∀ w, SearchParams.options (result st) !! SearchOption.name o = Some w →
        is_Multi w = is_multiple o) →
  completeOptionValue st = Ok (optionValueCompleted o st).
Proof.
  intros Ho Hn Hh Hm.
  unfold completeOptionValue, optionValueCompleted, completed_type,
    stored_options, coerce, isNaN_Number.
  rewrite Ho. case_bool_decide as Hv.
  { destruct st as [? [] ? ? ? ? ? ? ?]; simpl in *. by subst. }
  destruct (SearchOption.type o);
    repeat case_bool_decide;
    try destruct (StringNumericLiteral (currentValue st)); simpl;
    try (rewrite storeValue_eq by done); simpl;
    by destruct st as [? [] ? ? ? ? ? ? ?].
Qed.

Lemma completeOptionValue_LogicError st :
  completeOptionValue st = Throw LogicError ↔ currentOption st = None.
Proof.
  unfold completeOptionValue. split; [|by intros ->].
  destruct (currentOption st) as [o|]; [|done].
  rewrite bind_Throw. intros [H|(? & _ & [=])].
  case_bool_decide; [done|].
  unfold storeValue, obj_hasOwnProperty in H.
  repeat (case_match; simplify_eq/=; try done).
Qed.

(** ** Well-formed states *)

Section Scan.
Context (config : list SearchOption.t).
Context (options : gmap jsstring SearchOption.t).
Context (HT : Table config options).

Lemma WF_initial : WF options initial.
Proof.
  split; simpl; done.
Qed.

Lemma WF_frame st st2 :
  WF options st →
  inOptionValue st2 = inOptionValue st →
  currentOption st2 = currentOption st →
  SearchParams.options (result st2) = SearchParams.options (result st) →
  Forall (λ t, hint_ok options t ∧ space_ok t) (tokens st2) →
  WF options st2.
Proof.
  intros [H1 H2 H3 H4] E1 E2 E3 Ht.
  split; rewrite ?E1, ?E2, ?E3; done.
Qed.

Lemma WF_result_unshadowed st :
  WF options st → SearchParams.options (result st) !! HAS_OWN = None.
Proof.
  intros Hwf.
  destruct (SearchParams.options (result st) !! HAS_OWN) as [w|] eqn:E;
    [|done].
  apply Hwf in E as (Hn & o & Ho & _). congruence.
Qed.

(** In option-value mode [completeOptionValue] returns. *)
Lemma WF_completeOptionValue st st2 :
  WF options st →
  inOptionValue st = true →
  currentOption st2 = currentOption st →
  SearchParams.options (result st2) = SearchParams.options (result st) →
  ∃ o, currentOption st = Some o
       ∧ completeOptionValue st2 = Ok (optionValueCompleted o st2).
Proof.
  intros Hwf Hm E2 E3.
  destruct (wf_mode _ _ Hwf Hm) as [o Ho]. exists o. split; [done|].
  destruct (wf_current _ _ Hwf o Ho) as (Hn & Hl & _).
  apply completeOptionValue_eq.
  - congruence.
  - by apply HT in Hl as (_ & ? & _).
  - rewrite E3. by apply WF_result_unshadowed.
  - rewrite E3. intros w Hw.
    apply Hwf in Hw as (_ & o' & Ho' & ->). congruence.
Qed.

Lemma completed_type_cases o st :
  completed_type o st ∈ [MissingOptionValue; Enum; Text; Numeric; Invalid].
Proof.
  unfold completed_type, coerce.
  repeat (case_bool_decide || case_match); simpl; set_solver.
Qed.

Lemma WF_optionValueCompleted st o :
  WF options st →
  inOptionValue st = true →
  currentOption st = Some o →
  WF options (optionValueCompleted o st).
Proof.
  intros Hwf Hm Ho.
  destruct (wf_current _ _ Hwf o Ho) as (Hn & Hl & _).
  split; simpl; try done.
  - intros k v. unfold stored_options.
    case_bool_decide; [by apply Hwf|].
    destruct (snd _) as [x|]; [|by apply Hwf].
    unfold store. destruct (is_multiple o) eqn:Em.
    + rewrite lookup_insert. case_decide as Hk; [|by apply Hwf].
      intros [= <-]. split; [done|]. exists o. by subst k.
    + rewrite lookup_insert. case_decide as Hk; [|by apply Hwf].
      intros [= <-]. split; [done|]. exists o. by subst k.
  - rewrite Forall_app. split; [by apply Hwf|].
    constructor; [|done]. rewrite Hm. split.
    + unfold hint_ok. simpl. by rewrite Ho.
    + unfold space_ok. simpl. intros E.
      pose proof (completed_type_cases o st) as Hc. rewrite E in Hc.
      set_solver.
Qed.

Ltac by_rule R :=
  let H := fresh in
  pose proof R as H; rewrite ?parseError_eq in H; rewrite ?parseError_eq;
  exact H.

Ltac complete_value st Hwf Em o Ho :=
  rewrite ?parseError_eq;
  match goal with
  | |- context [completeOptionValue ?X] =>
      destruct (WF_completeOptionValue st X Hwf Em eq_refl eq_refl)
        as (o & Ho & ->)
  end; simpl.

Lemma step_Step i c st :
  WF options st → Step options i c st (step options i c st).
Proof.
  intros Hwf. unfold step.
  destruct (inQuotes st) eqn:Eq; [destruct (escaped st) eqn:Ee|].
  - destruct (escapeSequences c) as [d|] eqn:Ed.
    + by_rule (Step_escape options i c st d Eq Ee Ed).
    + by_rule (Step_invalid_escape options i c st Eq Ee Ed).
  - case_decide as Hq; [|case_decide as Hb].
    + simpl. destruct (inOptionValue st) eqn:Em.
      * complete_value st Hwf Em o Ho.
        by_rule (Step_close_value options i c st o Eq Ee Hq Em Ho).
      * by_rule (Step_close_text options i c st Eq Ee Hq Em).
    + by_rule (Step_quoted_backslash options i c st Eq Ee Hb).
    + by_rule (Step_quoted_char options i c st Eq Ee Hq Hb).
  - destruct (inOptionValue st) eqn:Em.
    + case_decide as Hq; [case_bool_decide as Ht|].
      { by_rule (Step_value_open_quote options i c st Eq Em Hq Ht). }
      { complete_value st Hwf Em o Ho.
        by_rule (Step_value_stray_quote options i c st o Eq Em Hq Ht Ho). }
      destruct (is_space c) eqn:Es.
      { complete_value st Hwf Em o Ho.
        by_rule (Step_value_space options i c st o Eq Em Es Ho). }
      case_decide as Hb.
      { complete_value st Hwf Em o Ho.
        by_rule (Step_value_backslash options i c st o Eq Em Hb Ho). }
      case_decide as Hc.
      { complete_value st Hwf Em o Ho.
        by_rule (Step_value_colon options i c st o Eq Em Hc Ho). }
      by_rule (Step_value_char options i c st Eq Em Hq Es Hb Hc).
    + destruct (is_space c) eqn:Es.
      { case_bool_decide as Ht.
        - by_rule (Step_space options i c st Eq Em Es Ht).
        - by_rule (Step_word_space options i c st Eq Em Es Ht). }
      case_decide as Hq.
      { case_bool_decide as Ht.
        - by_rule (Step_open_quote options i c st Eq Em Hq Ht).
        - by_rule (Step_stray_quote options i c st Eq Em Hq Ht). }
      case_decide as Hb.
      { by_rule (Step_backslash options i c st Eq Em Hb). }
      case_decide as Hc; [|by_rule (Step_char options i c st Eq Em Es Hq Hb Hc)].
      simpl. case_bool_decide as Hv.
      { by_rule (Step_empty_colon options i c st Eq Em Hc Hv). }
      unfold obj_hasOwnProperty. rewrite (WF_result_unshadowed st Hwf).
      destruct (options !! HAS_OWN) as [x|] eqn:Eh; simpl.
      { by apply Step_shadowed. }
      case_bool_decide as Hk.
      * destruct Hk as [o Ho]. rewrite Ho.
        destruct (is_multiple o) eqn:Emu; simpl.
        { by_rule (Step_option_name options i c st o Eq Em Hc Hv Eh Ho
                     ltac:(congruence)). }
        case_bool_decide as Hr.
        { by_rule (Step_repeated_option options i c st o Eq Em Hc Hv Eh Ho
                     Emu Hr). }
        apply eq_None_not_Some in Hr.
        by_rule (Step_option_name options i c st o Eq Em Hc Hv Eh Ho
                   (λ _, Hr)).
      * apply eq_None_not_Some in Hk.
        by_rule (Step_unknown_option options i c st Eq Em Hc Hv Eh Hk).
Qed.

(** The assignments that leave the mode, the current option, the stored
    values and the tokens alone keep a state well-formed. *)
Lemma WF_same st st2 :
  WF options st →
  inOptionValue st2 = inOptionValue st →
  currentOption st2 = currentOption st →
  SearchParams.options (result st2) = SearchParams.options (result st) →
  tokens st2 = tokens st →
  WF options st2.
Proof.
  intros Hwf E1 E2 E3 E4. apply (WF_frame st); try done.
  rewrite E4. apply Hwf.
Qed.

Lemma WF_with_currentTokenText x st :
  WF options st → WF options (with_currentTokenText x st).
Proof. intros H. by apply (WF_same st). Qed.
Lemma WF_with_currentValue x st :
  WF options st → WF options (with_currentValue x st).
Proof. intros H. by apply (WF_same st). Qed.
Lemma WF_with_inQuotes x st :
  WF options st → WF options (with_inQuotes x st).
Proof. intros H. by apply (WF_same st). Qed.
Lemma WF_with_escaped x st :
  WF options st → WF options (with_escaped x st).
Proof. intros H. by apply (WF_same st). Qed.
Lemma WF_push_text x st : WF options st → WF options (push_text x st).
Proof. intros H. by apply (WF_same st). Qed.
Lemma WF_parseError i t st :
  WF options st → WF options (parseError i t st).
Proof. intros H. rewrite parseError_eq. by apply (WF_same st). Qed.
Lemma WF_accumulate c st : WF options st → WF options (accumulate c st).
Proof. intros H. by apply (WF_same st). Qed.

Lemma WF_completeToken type st :
  WF options st →
  (type = Space → currentTokenText st = [SPACE]) →
  (type = MissingOptionValue → inOptionValue st = true) →
  WF options (completeToken type st).
Proof.
  intros Hwf Hs Hm. apply (WF_frame st); try done. simpl.
  rewrite Forall_app. split; [apply Hwf|]. constructor; [|done].
  split; [|done]. unfold hint_ok. simpl.
  destruct (inOptionValue st) eqn:Em; simpl.
  - destruct (wf_mode _ _ Hwf Em) as [o Ho]. rewrite Ho.
    by apply (wf_current _ _ Hwf).
  - case_bool_decide as H1; [by apply Hm in H1|].
    repeat case_bool_decide; simpl; auto.
Qed.

Lemma WF_emit type text st :
  WF options st →
  (type = Space → text = [SPACE]) →
  type ≠ MissingOptionValue →
  WF options (emit type text st).
Proof.
  intros Hwf Hs Hm. apply WF_completeToken; [|done..].
  by apply WF_with_currentTokenText.
Qed.

Ltac wf_peel :=
  repeat lazymatch goal with
    | H : WF _ ?st |- WF _ ?st => exact H
    | |- WF _ (with_currentTokenText _ _) => apply WF_with_currentTokenText
    | |- WF _ (with_currentValue _ _) => apply WF_with_currentValue
    | |- WF _ (with_inQuotes _ _) => apply WF_with_inQuotes
    | |- WF _ (with_escaped _ _) => apply WF_with_escaped
    | |- WF _ (push_text _ _) => apply WF_push_text
    | |- WF _ (parseError _ _ _) => apply WF_parseError
    | |- WF _ (accumulate _ _) => apply WF_accumulate
    | |- WF _ (emit _ _ _) => apply WF_emit; [|done..]
    | |- WF _ (completeToken _ _) => apply WF_completeToken; [|done..]
    | |- WF _ (optionValueCompleted _ _) =>
        apply WF_optionValueCompleted;
        [|simpl; rewrite ?parseError_eq; done..]
    end.

Lemma Step_WF i c st st' :
  WF options st → Step options i c st (Ok st') → WF options st'.
Proof.
  intros Hwf Hs. inversion Hs; subst; try by wf_peel.
  apply WF_with_currentValue.
  assert (WF options (emit OptionName (currentTokenText st ++ [COLON]) st))
    as [_ _ Hst Htk] by wf_peel.
  destruct (HT _ _ H5) as (Hn & _ & _).
  split; simpl in *; [done| |done..].
  intros ? [= <-]. rewrite Hn. done.
Qed.

Lemma Step_not_LogicError i c st : ¬ Step options i c st (Throw LogicError).
Proof. intros H. inversion H. Qed.

Lemma Step_Throw i c st e :
  Step options i c st (Throw e) →
  e = TypeError ∧ c = COLON ∧ is_Some (options !! HAS_OWN).
Proof. intros H. by inversion H. Qed.

(** *** The loop *)

Lemma loop_app i p s st :
  loop options i (p ++ s) st
  = loop options i p st ≫= loop options (length p + i) s.
Proof.
  revert i st. induction p as [|c p IH]; intros i st; simpl; [done|].
  destruct (step options i c st) as [st1|e]; simpl; [|done].
  rewrite IH. by rewrite Nat.add_succ_r.
Qed.

Lemma loop_WF i s st st' :
  WF options st → loop options i s st = Ok st' → WF options st'.
Proof.
  revert i st. induction s as [|c s IH]; intros i st Hwf; simpl.
  - by intros [= <-].
  - rewrite bind_Ok. intros (st1 & H1 & H2).
    apply (IH (S i) st1); [|done].
    apply (Step_WF i c st); [done|]. rewrite <- H1. by apply step_Step.
Qed.

Lemma loop_Throw i s st e :
  WF options st → loop options i s st = Throw e →
  e = TypeError ∧ COLON ∈ s ∧ is_Some (options !! HAS_OWN).
Proof.
  revert i st. induction s as [|c s IH]; intros i st Hwf; simpl; [done|].
  pose proof (step_Step i c st Hwf) as Hs.
  rewrite bind_Throw. intros [H|(st1 & H1 & H2)].
  - rewrite H in Hs. apply Step_Throw in Hs as (-> & -> & Hh).
    split_and!; [done|set_solver|done].
  - rewrite H1 in Hs. apply Step_WF in Hs; [|done].
    destruct (IH _ _ Hs H2) as (-> & Hc & Hh).
    split_and!; [done|set_solver|done].
Qed.

(** *** The end of the input *)

Lemma finish_Ok len st :
  WF options st → ∃ st', finish len st = Ok st' ∧ WF options st'.
Proof.
  intros Hwf. unfold finish.
  destruct (inQuotes st) eqn:Eq; [|destruct (inOptionValue st) eqn:Em].
  - simpl. destruct (inOptionValue st) eqn:Em.
    + assert (WF options (completeToken Text st)) as Hwf1 by wf_peel.
      destruct (WF_completeOptionValue _ (completeToken Text st) Hwf1 Em
                  eq_refl eq_refl) as (o & Ho & ->).
      simpl. eexists. split; [done|]. by wf_peel.
    + simpl. eexists. split; [done|]. by wf_peel.
  - destruct (WF_completeOptionValue st st Hwf Em eq_refl eq_refl)
      as (o & Ho & ->).
    eexists. split; [done|]. by wf_peel.
  - case_bool_decide; eexists; (split; [done|]); by wf_peel.
Qed.

(** *** Pending text *)

Lemma Step_Pending i c st st' :
  Pending st → Step options i c st (Ok st') → Pending st'.
Proof.
  unfold Pending. intros Hp Hs.
  inversion Hs; subst; rewrite ?parseError_eq; simpl; try done;
    intros E1 E2; first [congruence | by apply app_nil in E2 as [_ [=]]].
Qed.

(** *** The first error is kept *)

Lemma parseError_recorded i t st e :
  error st = Some e → parseError i t st = st.
Proof. unfold parseError. by intros ->. Qed.

Lemma Step_error i c st st' e :
  Step options i c st (Ok st') → error st = Some e → error st' = Some e.
Proof.
  intros Hs He.
  inversion Hs; subst; rewrite ?parseError_eq; simpl; by rewrite ?He.
Qed.

Lemma loop_error i s st st' e :
  WF options st → loop options i s st = Ok st' →
  error st = Some e → error st' = Some e.
Proof.
  revert i st. induction s as [|c s IH]; intros i st Hwf; simpl.
  - by intros [= <-].
  - rewrite bind_Ok. intros (st1 & H1 & H2) He.
    pose proof (step_Step i c st Hwf) as Hs. rewrite H1 in Hs.
    apply (IH (S i) st1); [by apply (Step_WF i c st)|done|].
    by apply (Step_error i c st).
Qed.

Lemma finish_error len st st' e :
  WF options st → finish len st = Ok st' →
  error st = Some e → error st' = Some e.
Proof.
  intros Hwf Hf He. unfold finish in Hf.
  destruct (inQuotes st) eqn:Eq; [|destruct (inOptionValue st) eqn:Em].
  - simpl in Hf. destruct (inOptionValue st) eqn:Em.
    + assert (WF options (completeToken Text st)) as Hwf1 by wf_peel.
      destruct (WF_completeOptionValue _ (completeToken Text st) Hwf1 Em
                  eq_refl eq_refl) as (o & Ho & E).
      rewrite E in Hf. simpl in Hf. injection Hf as <-.
      rewrite parseError_eq. simpl. by rewrite He.
    + simpl in Hf. injection Hf as <-.
      rewrite parseError_eq. simpl. by rewrite He.
  - destruct (WF_completeOptionValue st st Hwf Em eq_refl eq_refl)
      as (o & Ho & E).
    rewrite E in Hf. by injection Hf as <-.
  - case_bool_decide; by injection Hf as <-.
Qed.

(** *** Stored values only grow *)

Lemma extends_refl a : extends a a.
Proof. intros k. destruct (a !! k) as [[v|vs]|]; [done| |done].
       exists []. by rewrite app_nil_r. Qed.

Lemma extends_trans a b c : extends a b → extends b c → extends a c.
Proof.
  intros Hab Hbc k. specialize (Hab k). specialize (Hbc k).
  destruct (a !! k) as [[v|vs]|]; [| |done].
  - by rewrite Hab in Hbc.
  - destruct Hab as [m1 Hab]. rewrite Hab in Hbc.
    destruct Hbc as [m2 Hbc]. exists (m1 ++ m2). by rewrite app_assoc.
Qed.

Lemma extends_stored o st :
  WF options st → currentOption st = Some o →
  extends (SearchParams.options (result st)) (stored_options o st).
Proof.
  intros Hwf Ho. unfold stored_options.
  case_bool_decide; [apply extends_refl|].
  destruct (snd _) as [v|]; [|apply extends_refl].
  destruct (wf_current _ _ Hwf o Ho) as (_ & Hl & Hs).
  intros k. unfold store.
  destruct (SearchParams.options (result st) !! k) as [w|] eqn:Ek; [|done].
  destruct (decide (k = SearchOption.name o)) as [->|Hk].
  - destruct (wf_stored _ _ Hwf _ _ Ek) as (_ & o' & Ho' & Hm).
    assert (o' = o) as -> by congruence.
    destruct (is_multiple o) eqn:Emu.
    + destruct w as [?|vs]; [done|]. rewrite Ek. simpl.
      exists [v]. by rewrite lookup_insert_eq.
    + rewrite Hs in Ek; done.
  - destruct (is_multiple o);
      rewrite lookup_insert_ne by done; rewrite Ek;
      destruct w; try done; exists []; by rewrite app_nil_r.
Qed.

Lemma Step_extends i c st st' :
  WF options st → Step options i c st (Ok st') →
  extends (SearchParams.options (result st))
          (SearchParams.options (result st')).
Proof.
  intros Hwf Hs.
  inversion Hs; subst; rewrite ?parseError_eq; simpl;
    try apply extends_refl.
  - by apply (extends_stored o (with_currentTokenText _ st)); [wf_peel|].
  - by apply (extends_stored o (with_error _ st));
      [rewrite <- parseError_eq; wf_peel|].
  - by apply extends_stored.
  - by apply (extends_stored o (with_error _ st));
      [rewrite <- parseError_eq; wf_peel|].
  - by apply (extends_stored o (with_error _ st));
      [rewrite <- parseError_eq; wf_peel|].
Qed.

(** *** Raw text of the tokens *)

Lemma drops_pending_false c st :
  drops_pending c st = false →
  inQuotes st = false → inOptionValue st = false → c = BACKSLASH →
  currentTokenText st = [].
Proof.
  unfold drops_pending. intros Hd Hq Hm ->. rewrite Hq, Hm in Hd.
  rewrite bool_decide_true in Hd by done. simpl in Hd.
  apply negb_false_iff in Hd. by apply bool_decide_eq_true in Hd.
Qed.

Ltac raw_eq :=
  unfold raw; rewrite ?parseError_eq; simpl;
  repeat match goal with
    | H : currentTokenText _ = [] |- _ => rewrite H
    end;
  rewrite ?map_app, ?concat_app; simpl;
  rewrite ?app_nil_r, <- ?app_assoc; simpl; reflexivity.

Lemma Step_raw i c st st' :
  Step options i c st (Ok st') → drops_pending c st = false →
  ∃ c', raw st' = raw st ++ [c'] ∧ blanked c c'.
Proof.
  intros Hs Hd.
  inversion Hs; subst;
    try (pose proof (drops_pending_false _ _ Hd) as Hctt;
         do 3 (try specialize (Hctt ltac:(done))));
    try (exists SPACE; split; [raw_eq|by right]; fail);
    (eexists; split; [raw_eq|by left]).
Qed.

Lemma loop_Pending i s st st' :
  WF options st → Pending st → loop options i s st = Ok st' → Pending st'.
Proof.
  revert i st. induction s as [|c s IH]; intros i st Hwf Hp; simpl.
  - by intros [= <-].
  - rewrite bind_Ok. intros (st1 & H1 & H2).
    pose proof (step_Step i c st Hwf) as Hs. rewrite H1 in Hs.
    apply (IH (S i) st1); [by apply (Step_WF i c st)| |done].
    by apply (Step_Pending i c st).
Qed.

Lemma loop_raw i s st st' :
  WF options st → loop options i s st = Ok st' →
  keeps_pending options i s st = true →
  ∃ s', raw st' = raw st ++ s' ∧ Forall2 blanked s s'.
Proof.
  revert i st. induction s as [|c s IH]; intros i st Hwf; simpl.
  - intros [= <-] _. exists []. by rewrite app_nil_r.
  - rewrite bind_Ok. intros (st1 & H1 & H2).
    rewrite andb_true_iff, negb_true_iff. rewrite H1. intros [Hd Hk].
    pose proof (step_Step i c st Hwf) as Hs. rewrite H1 in Hs.
    destruct (Step_raw i c st st1 Hs Hd) as (c' & Hr & Hb).
    destruct (IH (S i) st1 (Step_WF i c st st1 Hwf Hs) H2 Hk)
      as (s' & Hr' & Hf).
    exists (c' :: s'). split; [|by constructor].
    rewrite Hr', Hr. by rewrite <- app_assoc.
Qed.

Lemma finish_raw len st st' :
  WF options st → Pending st → finish len st = Ok st' →
  concat (map Token.content (tokens st')) = raw st.
Proof.
  intros Hwf Hp Hf. unfold finish in Hf.
  destruct (inQuotes st) eqn:Eq; [|destruct (inOptionValue st) eqn:Em].
  - simpl in Hf. destruct (inOptionValue st) eqn:Em.
    + assert (WF options (completeToken Text st)) as Hwf1 by wf_peel.
      destruct (WF_completeOptionValue _ (completeToken Text st) Hwf1 Em
                  eq_refl eq_refl) as (o & Ho & E).
      rewrite E in Hf. simpl in Hf. injection Hf as <-.
      unfold raw. rewrite parseError_eq. simpl.
      rewrite !map_app, !concat_app. simpl. by rewrite !app_nil_r.
    + simpl in Hf. injection Hf as <-.
      unfold raw. rewrite parseError_eq. simpl.
      rewrite !map_app, !concat_app. simpl. by rewrite !app_nil_r.
  - destruct (WF_completeOptionValue st st Hwf Em eq_refl eq_refl)
      as (o & Ho & E).
    rewrite E in Hf. injection Hf as <-. unfold raw. simpl.
    rewrite !map_app, !concat_app. simpl. by rewrite !app_nil_r.
  - case_bool_decide as Hv; injection Hf as <-; unfold raw; simpl.
    + by rewrite (Hp Eq Hv), app_nil_r.
    + rewrite !map_app, !concat_app. simpl. by rewrite !app_nil_r.
Qed.

Lemma loop_extends i s st st' :
  WF options st → loop options i s st = Ok st' →
  extends (SearchParams.options (result st))
          (SearchParams.options (result st')).
Proof.
  revert i st. induction s as [|c s IH]; intros i st Hwf; simpl.
  - intros [= <-]. apply extends_refl.
  - rewrite bind_Ok. intros (st1 & H1 & H2).
    pose proof (step_Step i c st Hwf) as Hs. rewrite H1 in Hs.
    eapply extends_trans; [by apply (Step_extends i c st)|].
    apply (IH (S i) st1); [by apply (Step_WF i c st)|done].
Qed.

Lemma finish_extends len st st' :
  WF options st → finish len st = Ok st' →
  extends (SearchParams.options (result st))
          (SearchParams.options (result st')).
Proof.
  intros Hwf Hf. unfold finish in Hf.
  destruct (inQuotes st) eqn:Eq; [|destruct (inOptionValue st) eqn:Em].
  - simpl in Hf. destruct (inOptionValue st) eqn:Em.
    + assert (WF options (completeToken Text st)) as Hwf1 by wf_peel.
      destruct (WF_completeOptionValue _ (completeToken Text st) Hwf1 Em
                  eq_refl eq_refl) as (o & Ho & E).
      rewrite E in Hf. simpl in Hf. injection Hf as <-.
      rewrite parseError_eq. simpl.
      by apply (extends_stored o (completeToken Text st)).
    + simpl in Hf. injection Hf as <-.
      rewrite parseError_eq. simpl. apply extends_refl.
  - destruct (WF_completeOptionValue st st Hwf Em eq_refl eq_refl)
      as (o & Ho & E).
    rewrite E in Hf. injection Hf as <-. simpl. by apply extends_stored.
  - case_bool_decide; injection Hf as <-; apply extends_refl.
Qed.

(** *** What the tokens hold for each code unit *)

Lemma Step_held i c st st' :
  Step options i c st (Ok st') → drops_pending c st = false →
  raw st' = raw st ++ [held c st].
Proof.
  intros Hs Hd.
  assert (is_space QUOTE = false) as Hq by by vm_compute.
  assert (is_space BACKSLASH = false) as Hb by by vm_compute.
  assert (is_space COLON = false) as Hc by by vm_compute.
  inversion Hs; subst;
    try (pose proof (drops_pending_false _ _ Hd) as Hctt;
         do 3 (try specialize (Hctt ltac:(done))));
    unfold held;
    repeat match goal with
      | H : inQuotes st = _ |- _ => rewrite H
      | H : is_space _ = _ |- _ => rewrite H
      end;
    cbn [negb andb]; raw_eq.
Qed.

Lemma loop_held i s st st' :
  WF options st → loop options i s st = Ok st' →
  keeps_pending options i s st = true →
  ∃ s', raw st' = raw st ++ s'
        ∧ length s' = length s
        ∧ ∀ k c, s !! k = Some c →
            ∃ stk, loop options i (take k s) st = Ok stk
                   ∧ s' !! k = Some (held c stk).
Proof.
  revert i st. induction s as [|c s IH]; intros i st Hwf; simpl.
  - intros [= <-] _. exists []. rewrite app_nil_r. split_and!; done.
  - rewrite bind_Ok. intros (st1 & H1 & H2).
    rewrite andb_true_iff, negb_true_iff. rewrite H1. intros [Hd Hk].
    pose proof (step_Step i c st Hwf) as Hs. rewrite H1 in Hs.
    pose proof (Step_held i c st st1 Hs Hd) as Hr.
    destruct (IH (S i) st1 (Step_WF i c st st1 Hwf Hs) H2 Hk)
      as (s' & Hr' & Hlen & Hat).
    exists (held c st :: s'). split_and!.
    + rewrite Hr', Hr. by rewrite <- app_assoc.
    + simpl. by rewrite Hlen.
    + intros [|k] x; simpl.
      * intros [= <-]. by exists st.
      * intros Hx. destruct (Hat k x Hx) as (stk & Hl & Hk').
        exists stk. by rewrite H1, Ok_bind.
Qed.
End Scan.

(** ** [parse] as a whole *)

Lemma parse_Ok str config r :
  parse str config = Ok r →
  ∃ st st',
    loop (make_options config) 0 str initial = Ok st
    ∧ finish (length str) st = Ok st'
    ∧ WF (make_options config) st ∧ WF (make_options config) st'
    ∧ Pending st
    ∧ r = ParseResult.mk (tokens st') (error st') (result st').
Proof.
  unfold parse. rewrite bind_Ok. intros (st & Hl & H).
  apply bind_Ok in H as (st' & Hf & [= <-]).
  pose proof (make_options_Table config) as HT.
  assert (WF (make_options config) st) as Hwf
    by (eapply loop_WF; [done|apply WF_initial|done]).
  exists st, st'. split_and!; try done.
  - destruct (finish_Ok config _ HT (length str) st Hwf) as (st2 & E & Hwf2).
    congruence.
  - eapply loop_Pending; [done|apply WF_initial|done|done].
Qed.

(** [parse] raises nothing but the TypeError of a shadowed
    [hasOwnProperty], and only on an input with a colon. *)
Lemma parse_Throw str config e :
  parse str config = Throw e →
  e = TypeError ∧ COLON ∈ str
  ∧ ∃ o, o ∈ config ∧ SearchOption.name o = HAS_OWN.
Proof.
  pose proof (make_options_Table config) as HT.
  unfold parse. rewrite bind_Throw. intros [H|(st & Hl & H)].
  - eapply loop_Throw in H as (-> & Hc & [o Ho]); [|done|apply WF_initial].
    split_and!; [done..|]. exists o. by apply HT in Ho as (? & _ & ?).
  - assert (WF (make_options config) st) as Hwf
      by (eapply loop_WF; [done|apply WF_initial|done]).
    destruct (finish_Ok config _ HT (length str) st Hwf) as (st2 & E & _).
    rewrite E in H. done.
Qed.

Lemma parse_never_LogicError str config :
  parse str config ≠ Throw LogicError.
Proof. intros H. by apply parse_Throw in H as ([=] & _). Qed.

Lemma parse_total str config :
  (∀ o, o ∈ config → SearchOption.name o ≠ HAS_OWN) →
  ∃ r, parse str config = Ok r.
Proof.
  intros Hc. destruct (parse str config) as [r|e] eqn:E; [by exists r|].
  apply parse_Throw in E as (_ & _ & o & Ho & Hn). by apply Hc in Ho.
Qed.

Lemma parse_total_without_colon str config :
  COLON ∉ str → ∃ r, parse str config = Ok r.
Proof.
  intros Hc. destruct (parse str config) as [r|e] eqn:E; [by exists r|].
  by apply parse_Throw in E as (_ & ? & _).
Qed.

(** ** Properties of the parser *)

(** C2: [parse] raises to its caller on the schema with one string option
    named [hasOwnProperty] and the input [a:]: the method call
    [options.hasOwnProperty(currentValue)] finds the schema entry in place
    of the method and the call is a TypeError. *)
Theorem parse_raises_TypeError :
  parse (js "a:") [shadowing] = Throw TypeError.
Proof. reflexivity. Qed.

(** C10: every Space token of the output of [parse] holds the one-unit
    string of an ASCII space, whichever white-space code unit was read. *)
Theorem space_tokens_hold_one_space str config r :
  parse str config = Ok r →
  Forall (λ t, Token.type t = Space → Token.content t = [SPACE])
         (ParseResult.tokens r).
Proof.
  intros (st & st' & _ & _ & _ & Hwf & _ & ->)%parse_Ok. simpl.
  eapply Forall_impl; [apply Hwf|]. by intros t [_ Hs].
Qed.

(** C10 at the input of one tab. *)
Lemma space_tokens_hold_one_space_witness :
  Forall (λ t, Token.type t = Space → Token.content t = [SPACE])
         [Token.mk Space [SPACE] suggest_options].
Proof.
  apply (space_tokens_hold_one_space [9] []
           (ParseResult.mk [Token.mk Space [SPACE] suggest_options] None
                           (SearchParams.mk [] ∅))).
  reflexivity.
Defined.

Lemma completeToken_hint_rule type st :
  completeToken type st
  = with_currentTokenText []
      (with_tokens (tokens st ++ [Token.mk type (currentTokenText st)
                                           (hint_rule type st)]) st).
Proof.
  unfold completeToken, hint_rule. do 3 f_equal.
  destruct (inOptionValue st); simpl; [done|].
  case_bool_decide as H1; [done|].
  destruct type; try done.
Qed.

(** C8: [completeToken] assigns the suggest hint by [hint_rule]: the
    current option in option-value mode and on a MissingOptionValue token,
    [options] on a Text or Space token outside option-value mode, [none]
    otherwise.  In the output of [parse] a hint that is an option is an
    entry of the schema (never null), the hint [options] sits on Text and
    Space tokens only, and the hint [none] on tokens that are neither Text,
    Space nor MissingOptionValue. *)
Theorem suggest_hint_assignment :
  (∀ type st,
     completeToken type st
     = with_currentTokenText []
         (with_tokens (tokens st ++ [Token.mk type (currentTokenText st)
                                              (hint_rule type st)]) st))
  ∧ (∀ str config r,
       parse str config = Ok r →
       Forall (hint_ok (make_options config)) (ParseResult.tokens r)).
Proof.
  split; [apply completeToken_hint_rule|].
  intros str config r (st & st' & _ & _ & _ & Hwf & _ & ->)%parse_Ok. simpl.
  eapply Forall_impl; [apply Hwf|]. by intros t [Hh _].
Qed.

(** C8 at the input [tag:a b] with a string option [tag]. *)
Lemma suggest_hint_assignment_witness :
  Forall (hint_ok (make_options [tag_single]))
    [Token.mk OptionName (js "tag:") suggest_none;
     Token.mk Text (js "a") (suggest_option (Some tag_single));
     Token.mk Space (js " ") suggest_options;
     Token.mk Text (js "b") suggest_options].
Proof.
  apply (proj2 suggest_hint_assignment (js "tag:a b") [tag_single]
           (ParseResult.mk
              [Token.mk OptionName (js "tag:") suggest_none;
               Token.mk Text (js "a") (suggest_option (Some tag_single));
               Token.mk Space (js " ") suggest_options;
               Token.mk Text (js "b") suggest_options]
              None
              (SearchParams.mk [js "b"]
                 {[ js "tag" := Single (VString (js "a")) ]}))).
  vm_compute. reflexivity.
Defined.

(** C3: on the input of a backslash, [a] and a colon, with a schema whose
    one option is named [hasOwnProperty], the scan records the error of
    the backslash at index 0 and goes on over [a]; at the colon the call
    [options.hasOwnProperty(currentValue)] finds the option of the schema
    in place of the method and raises a TypeError.  The scan does not run
    to completion and [parse] returns neither the error it has recorded
    nor the tokens. *)
Theorem scan_stops_after_first_error :
  (∃ st, loop (make_options [shadowing]) 0 ([BACKSLASH] ++ js "a") initial
         = Ok st
         ∧ error st
           = Some (ParseError.mk 0 (js "unexpected escape character")))
  ∧ parse ([BACKSLASH] ++ js "a:") [shadowing] = Throw TypeError.
Proof.
  split; [|by vm_compute].
  eexists. split; [by vm_compute|reflexivity].
Qed.

Lemma keeps_pending_without_backslash options i s st :
  BACKSLASH ∉ s → keeps_pending options i s st = true.
Proof.
  revert i st. induction s as [|c s IH]; intros i st Hs; simpl; [done|].
  apply not_elem_of_cons in Hs as [Hc Hs].
  rewrite andb_true_iff, negb_true_iff. split.
  - unfold drops_pending. rewrite (bool_decide_false (c = BACKSLASH)) by done.
    by rewrite andb_false_r.
  - destruct (step options i c st); [by apply IH|done].
Qed.

Lemma blanked_spaces s s' :
  Forall2 blanked s s' →
  (∀ c, c ∈ s → is_space c = true → c = SPACE) → s' = s.
Proof.
  induction 1 as [|c c' s s' Hb _ IH]; intros Hs; [done|].
  f_equal.
  - destruct Hb as [->|[Hc ->]]; [done|]. symmetry. apply Hs; [|done].
    by left.
  - apply IH. intros x Hx. apply Hs. by right.
Qed.

(** C1, as the specification states it, fails on the input of one tab:
    the only token is a Space token that holds an ASCII space. *)
Lemma tab_is_not_reproduced :
  ∃ r, parse [9] [] = Ok r
       ∧ concat (map Token.content (ParseResult.tokens r)) ≠ [9].
Proof. eexists. split; [reflexivity|]. simpl. discriminate. Qed.

(** The path that [keeps_pending] excludes: on [ab] followed by a
    backslash the raw text [ab] is in no token. *)
Example pending_word_is_dropped :
  parse (js "ab" ++ [BACKSLASH]) []
  = Ok (ParseResult.mk
          [Token.mk Invalid [BACKSLASH] suggest_none;
           Token.mk Text [] suggest_options]
          (Some (ParseError.mk 2 (js "unexpected escape character")))
          (SearchParams.mk [js "ab"] ∅))
  ∧ keeps_pending (make_options []) 0 (js "ab" ++ [BACKSLASH]) initial
    = false.
Proof. split; by vm_compute. Qed.

(** C1, amended: when the scan never meets a backslash outside quotes and
    outside an option value while raw text is pending, the contents of the
    tokens, concatenated in order, have the length of the input and hold,
    at every index, what the loop holds for the code unit it reads there:
    an ASCII space when that code unit is white space read outside quotes
    ([inQuotes] is false when the loop reaches it), and the code unit of
    the input itself otherwise, white space inside quotes included.  The
    concatenation is the input itself when its only white space is the
    ASCII space. *)
Theorem tokens_reproduce_input str config r :
  parse str config = Ok r →
  keeps_pending (make_options config) 0 str initial = true →
  length (concat (map Token.content (ParseResult.tokens r))) = length str
  ∧ (∀ k c, str !! k = Some c →
       ∃ st, loop (make_options config) 0 (take k str) initial = Ok st
             ∧ concat (map Token.content (ParseResult.tokens r)) !! k
               = Some (held c st))
  ∧ ((∀ c, c ∈ str → is_space c = true → c = SPACE) →
     concat (map Token.content (ParseResult.tokens r)) = str).
Proof.
  intros (st & st' & Hl & Hf & Hwf & _ & Hp & ->)%parse_Ok Hk. simpl.
  pose proof (make_options_Table config) as HT.
  rewrite (finish_raw config _ HT _ st st' Hwf Hp Hf).
  split_and!.
  - destruct (loop_held config _ HT 0 str initial st (WF_initial _) Hl Hk)
      as (s' & -> & Hlen & _).
    done.
  - destruct (loop_held config _ HT 0 str initial st (WF_initial _) Hl Hk)
      as (s' & -> & _ & Hat).
    done.
  - destruct (loop_raw config _ HT 0 str initial st (WF_initial _) Hl Hk)
      as (s' & -> & Hb).
    by apply blanked_spaces.
Qed.

(** C1 (amended) at the input [a], a tab, and a quoted tab: the tab
    outside the quotes is held as a space, the tab inside them as it
    is. *)
Lemma tokens_reproduce_input_witness :
  length (concat (map Token.content
                    (ParseResult.tokens
                       (ParseResult.mk
                          [Token.mk Text (js "a") suggest_options;
                           Token.mk Space [SPACE] suggest_options;
                           Token.mk Text [QUOTE; 9; QUOTE] suggest_options]
                          None (SearchParams.mk [js "a"; [9]] ∅)))))
  = length (js "a" ++ [9; QUOTE; 9; QUOTE])
  ∧ (∀ k c, (js "a" ++ [9; QUOTE; 9; QUOTE]) !! k = Some c →
       ∃ st, loop (make_options []) 0
                  (take k (js "a" ++ [9; QUOTE; 9; QUOTE])) initial = Ok st
             ∧ concat (map Token.content
                         (ParseResult.tokens
                            (ParseResult.mk
                               [Token.mk Text (js "a") suggest_options;
                                Token.mk Space [SPACE] suggest_options;
                                Token.mk Text [QUOTE; 9; QUOTE]
                                         suggest_options]
                               None (SearchParams.mk [js "a"; [9]] ∅))))
               !! k
               = Some (held c st))
  ∧ ((∀ c, c ∈ js "a" ++ [9; QUOTE; 9; QUOTE] →
           is_space c = true → c = SPACE) →
     concat (map Token.content
               (ParseResult.tokens
                  (ParseResult.mk
                     [Token.mk Text (js "a") suggest_options;
                      Token.mk Space [SPACE] suggest_options;
                      Token.mk Text [QUOTE; 9; QUOTE] suggest_options]
                     None (SearchParams.mk [js "a"; [9]] ∅))))
     = js "a" ++ [9; QUOTE; 9; QUOTE]).
Proof.
  apply (tokens_reproduce_input (js "a" ++ [9; QUOTE; 9; QUOTE]) []).
  - reflexivity.
  - reflexivity.
Defined.

(** ** Free text without options *)

Lemma split_whitespace_word w c s :
  Forall (λ x, is_space x = false) w → is_space c = true →
  split_whitespace (w ++ c :: s) = pending_word w ++ split_whitespace s.
Proof.
  intros Hw Hc. induction Hw as [|a w Ha Hw IH]; simpl.
  - by rewrite Hc.
  - rewrite Ha. destruct Hw as [|b w Hb Hw]; simpl in *.
    + by rewrite Hc.
    + rewrite Hb. simpl. rewrite Hb in IH. by rewrite IH.
Qed.

Lemma split_whitespace_last w :
  Forall (λ x, is_space x = false) w → split_whitespace w = pending_word w.
Proof.
  intros Hw. induction Hw as [|a w Ha Hw IH]; simpl; [done|].
  rewrite Ha. destruct Hw as [|b w Hb Hw]; simpl in *; [done|].
  rewrite Hb. simpl. rewrite Hb in IH. by rewrite IH.
Qed.

(** The scan of a text without colon, quote or backslash from a state
    outside quotes and option values whose pending word is [w]. *)
Lemma loop_free_text options i s st :
  COLON ∉ s → QUOTE ∉ s → BACKSLASH ∉ s →
  inQuotes st = false → inOptionValue st = false →
  currentTokenText st = currentValue st →
  Forall (λ x, is_space x = false) (currentValue st) →
  ∃ st', loop options i s st = Ok st'
    ∧ inQuotes st' = false ∧ inOptionValue st' = false
    ∧ SearchParams.options (result st') = SearchParams.options (result st)
    ∧ SearchParams.text (result st') ++ pending_word (currentValue st')
      = SearchParams.text (result st)
        ++ split_whitespace (currentValue st ++ s).
Proof.
  revert i st. induction s as [|c s IH]; intros i st Hc Hq Hb Eq Em Et Hw.
  - exists st. simpl. rewrite app_nil_r.
    by rewrite split_whitespace_last.
  - apply not_elem_of_cons in Hc as [Hc1 Hc].
    apply not_elem_of_cons in Hq as [Hq1 Hq].
    apply not_elem_of_cons in Hb as [Hb1 Hb].
    simpl. unfold step. rewrite Eq, Em.
    destruct (is_space c) eqn:Es.
    + rewrite split_whitespace_word by done. unfold pending_word at 2.
      rewrite <- Et. case_bool_decide as Hv; simpl.
      * edestruct (IH (S i)) as (st' & -> & ? & ? & Ho & Ht);
          [done..| |exists st'; split_and!; [done..|by rewrite Ht]].
        by constructor.
      * edestruct (IH (S i)) as (st' & -> & ? & ? & Ho & Ht);
          [done..| |exists st'; split_and!; [done..|]].
        { by constructor. }
        rewrite Ht. simpl. by rewrite Et, <- app_assoc.
    + rewrite !decide_False by done. simpl.
      edestruct (IH (S i)) as (st' & -> & ? & ? & Ho & Ht);
        [done..| | |exists st'; split_and!; [done..|]].
      * simpl. by rewrite Et.
      * simpl. apply Forall_app. split; [done|]. by constructor.
      * rewrite Ht. simpl. by rewrite <- app_assoc.
Qed.

(** C9: on an input without colon, quote and backslash, [parse] returns,
    the free text of the result is the input split on runs of white space,
    and no option is set. *)
Theorem free_text_is_split_input str config :
  COLON ∉ str → QUOTE ∉ str → BACKSLASH ∉ str →
  ∃ r, parse str config = Ok r
       ∧ SearchParams.text (ParseResult.result r) = split_whitespace str
       ∧ SearchParams.options (ParseResult.result r) = ∅.
Proof.
  intros Hc Hq Hb.
  destruct (loop_free_text (make_options config) 0 str initial Hc Hq Hb)
    as (st & Hl & Eq & Em & Ho & Ht); [done..|].
  unfold parse. rewrite Hl. simpl. unfold finish. rewrite Eq, Em.
  simpl in Ht. unfold pending_word in Ht.
  case_bool_decide; simpl; eexists; (split; [done|]); simpl.
  - by rewrite app_nil_r in Ht.
  - done.
Qed.

(** C9 at an input with tabs and repeated spaces. *)
Lemma free_text_is_split_input_witness :
  ∃ r, parse (js "  foo" ++ [9; 9] ++ js "bar baz ") [tag_single] = Ok r
       ∧ SearchParams.text (ParseResult.result r)
         = split_whitespace (js "  foo" ++ [9; 9] ++ js "bar baz ")
       ∧ SearchParams.options (ParseResult.result r) = ∅.
Proof.
  apply (free_text_is_split_input
           (js "  foo" ++ [9; 9] ++ js "bar baz ") [tag_single]).
  - vm_compute. set_solver.
  - vm_compute. set_solver.
  - vm_compute. set_solver.
Defined.

Example split_whitespace_example :
  split_whitespace (js "  foo" ++ [9; 9] ++ js "bar baz ")
  = [js "foo"; js "bar"; js "baz"].
Proof. reflexivity. Qed.

(** ** Repeated and multiple options *)

Lemma prefix_state config p s st st2 :
  loop (make_options config) 0 p initial = Ok st →
  loop (make_options config) 0 (p ++ s) initial = Ok st2 →
  WF (make_options config) st
  ∧ loop (make_options config) (length p) s st = Ok st2.
Proof.
  intros Hp Hl. pose proof (make_options_Table config) as HT. split.
  - eapply loop_WF; [done|apply WF_initial|done].
  - rewrite loop_app, Hp in Hl. simpl in Hl. by rewrite Nat.add_0_r in Hl.
Qed.

Lemma parse_extends config p s st r :
  loop (make_options config) 0 p initial = Ok st →
  parse (p ++ s) config = Ok r →
  extends (SearchParams.options (result st))
          (SearchParams.options (ParseResult.result r)).
Proof.
  intros Hp (st1 & st2 & Hl & Hf & Hwf1 & _ & _ & ->)%parse_Ok. simpl.
  pose proof (make_options_Table config) as HT.
  destruct (prefix_state config p s st st1 Hp Hl) as [Hwf Hl'].
  eapply extends_trans.
  - by apply (loop_extends config _ HT (length p) s st st1).
  - by apply (finish_extends config _ HT (length (p ++ s)) st1 st2).
Qed.

(** C5: when the pending word names a non-multiple option that has a
    value already, the colon completes an InvalidOptionName token, records
    the error (unless one is recorded already) at the index of the colon,
    leaves the result as it is and stays outside option values; the value
    is still the stored one at the end of [parse].  On [tag:a tag:b] the
    value of [tag] is [a] and [b] is free text. *)
Theorem repeated_option_is_rejected :
  (∀ config p s st o,
     loop (make_options config) 0 p initial = Ok st →
     inQuotes st = false → inOptionValue st = false →
     currentValue st ≠ [] →
     make_options config !! currentValue st = Some o →
     is_multiple o = false →
     is_Some (SearchParams.options (result st) !! currentValue st) →
     ∃ st',
       step (make_options config) (length p) COLON st = Ok st'
       ∧ tokens st'
         = tokens st ++ [Token.mk InvalidOptionName
                                  (currentTokenText st ++ [COLON])
                                  suggest_none]
       ∧ error st'
         = Some (default (ParseError.mk (length p)
                                        (js "illegally repeated option"))
                         (error st))
       ∧ result st' = result st
       ∧ inQuotes st' = false ∧ inOptionValue st' = false
       ∧ currentValue st' = [] ∧ currentTokenText st' = []
       ∧ ∀ r, parse (p ++ COLON :: s) config = Ok r →
              SearchParams.options (ParseResult.result r) !! currentValue st
              = SearchParams.options (result st) !! currentValue st)
  ∧ parse (js "tag:a tag:b") [tag_single]
    = Ok (ParseResult.mk
            [Token.mk OptionName (js "tag:") suggest_none;
             Token.mk Text (js "a") (suggest_option (Some tag_single));
             Token.mk Space (js " ") suggest_options;
             Token.mk InvalidOptionName (js "tag:") suggest_none;
             Token.mk Text (js "b") suggest_options]
            (Some (ParseError.mk 9 (js "illegally repeated option")))
            (SearchParams.mk [js "b"]
               {[ js "tag" := Single (VString (js "a")) ]})).
Proof.
  split; [|by vm_compute].
  intros config p s st o Hp Eq Em Hv Ho Hmu [w Hw].
  pose proof (make_options_Table config) as HT.
  assert (WF (make_options config) st) as Hwf
    by (eapply loop_WF; [done|apply WF_initial|done]).
  destruct (wf_stored _ _ Hwf _ _ Hw) as (Hh & o' & Ho' & Hm).
  assert (o' = o) as -> by congruence.
  pose proof (WF_result_unshadowed _ _ Hwf) as Hr.
  eexists. split_and!.
  - unfold step. rewrite Eq, Em. simpl.
    rewrite bool_decide_false by done.
    unfold obj_hasOwnProperty. rewrite Hh, Hr. simpl.
    rewrite bool_decide_true by done. rewrite Ho, Hmu. simpl.
    rewrite bool_decide_true by done. simpl. reflexivity.
  - rewrite parseError_eq. simpl. by rewrite Em.
  - rewrite parseError_eq. done.
  - rewrite parseError_eq. simpl. by destruct (result st).
  - by rewrite parseError_eq.
  - by rewrite parseError_eq.
  - done.
  - by rewrite parseError_eq.
  - intros r Hparse.
    pose proof (parse_extends config p (COLON :: s) st r Hp Hparse
                  (currentValue st)) as He.
    rewrite Hw in He. rewrite Hw. destruct w as [v|vs]; [done|].
    simpl in Hm. congruence.
Qed.

(** C5 at the prefix [tag:a tag] of [tag:a tag:b]. *)
Lemma repeated_option_is_rejected_witness :
  ∃ st',
    step (make_options [tag_single]) (length (js "tag:a tag")) COLON
         after_tag_a_tag = Ok st'
    ∧ tokens st'
      = tokens after_tag_a_tag
        ++ [Token.mk InvalidOptionName
                     (currentTokenText after_tag_a_tag ++ [COLON])
                     suggest_none]
    ∧ error st'
      = Some (default (ParseError.mk (length (js "tag:a tag"))
                                     (js "illegally repeated option"))
                      (error after_tag_a_tag))
    ∧ result st' = result after_tag_a_tag
    ∧ inQuotes st' = false ∧ inOptionValue st' = false
    ∧ currentValue st' = [] ∧ currentTokenText st' = []
    ∧ ∀ r, parse (js "tag:a tag" ++ COLON :: js "b") [tag_single] = Ok r →
           SearchParams.options (ParseResult.result r)
             !! currentValue after_tag_a_tag
           = SearchParams.options (result after_tag_a_tag)
               !! currentValue after_tag_a_tag.
Proof.
  apply (proj1 repeated_option_is_rejected [tag_single] (js "tag:a tag")
           (js "b") after_tag_a_tag tag_single).
  - vm_compute. reflexivity.
  - reflexivity.
  - reflexivity.
  - discriminate.
  - vm_compute. reflexivity.
  - reflexivity.
  - vm_compute. by eexists.
Defined.



(** ** The end of the input inside quotes *)

(** C7: when the input ends inside quotes, [parse] returns; the pending
    raw text is completed as a Text token and the last token is an empty
    MissingQuote token; outside an option value the pending value is added
    to the free text; inside an option value [completeOptionValue] runs
    as well, completes one more token without raw text and stores the
    value if it is accepted; the error is the missing quotation mark at
    the length of the input unless an error was recorded before. *)
Theorem unterminated_quote :
  (∀ config str st,
     loop (make_options config) 0 str initial = Ok st →
     inQuotes st = true →
     ∃ r, parse str config = Ok r
       ∧ ParseResult.error r
         = Some (default (ParseError.mk (length str)
                                        (js "missing quotation mark"))
                         (error st))
       ∧ if inOptionValue st then
           ∃ o, currentOption st = Some o
             ∧ ParseResult.tokens r
               = tokens st
                 ++ [Token.mk Text (currentTokenText st)
                              (suggest_option (Some o));
                     Token.mk (completed_type o st) []
                              (suggest_option (Some o));
                     Token.mk MissingQuote [] suggest_none]
             ∧ ParseResult.result r
               = SearchParams.mk (SearchParams.text (result st))
                                 (stored_options o st)
         else
           ParseResult.tokens r
           = tokens st
             ++ [Token.mk Text (currentTokenText st) suggest_options;
                 Token.mk MissingQuote [] suggest_none]
           ∧ ParseResult.result r
             = SearchParams.mk
                 (SearchParams.text (result st) ++ [currentValue st])
                 (SearchParams.options (result st)))
  ∧ parse (QUOTE :: js "unterminated") []
    = Ok (ParseResult.mk
            [Token.mk Text (QUOTE :: js "unterminated") suggest_options;
             Token.mk MissingQuote [] suggest_none]
            (Some (ParseError.mk 13 (js "missing quotation mark")))
            (SearchParams.mk [js "unterminated"] ∅)).
Proof.
  split; [|by vm_compute].
  intros config str st Hl Eq.
  pose proof (make_options_Table config) as HT.
  assert (WF (make_options config) st) as Hwf
    by (eapply loop_WF; [done|apply WF_initial|done]).
  unfold parse. rewrite Hl, Ok_bind. clear Hl.
  unfold finish. rewrite Eq.
  change (inOptionValue (completeToken Text st)) with (inOptionValue st).
  destruct (inOptionValue st) eqn:Em.
  - assert (WF (make_options config) (completeToken Text st)) as Hwf1.
    { by apply WF_completeToken. }
    destruct (WF_completeOptionValue config _ HT _ (completeToken Text st)
                Hwf1 Em eq_refl eq_refl) as (o & Ho & ->).
    rewrite !Ok_bind, parseError_eq.
    destruct st as [tk [tx op] er ctt cv q e m co]. simpl in *. subst.
    eexists. split; [reflexivity|]. simpl. split; [done|].
    exists o. split; [done|].
    split; [by rewrite <- !app_assoc|done].
  - rewrite !Ok_bind, parseError_eq.
    destruct st as [tk [tx op] er ctt cv q e m co]. simpl in *. subst.
    eexists. split; [reflexivity|]. simpl.
    split; [done|]. split; [by rewrite <- app_assoc|done].
Qed.

(** C7 at the input of an opening quote and [unterminated]. *)
Lemma unterminated_quote_witness :
  ∃ r, parse (QUOTE :: js "unterminated") [] = Ok r
    ∧ ParseResult.error r
      = Some (default (ParseError.mk (length (QUOTE :: js "unterminated"))
                                     (js "missing quotation mark"))
                      (error in_unterminated))
    ∧ if inOptionValue in_unterminated then
        ∃ o, currentOption in_unterminated = Some o
          ∧ ParseResult.tokens r
            = tokens in_unterminated
              ++ [Token.mk Text (currentTokenText in_unterminated)
                           (suggest_option (Some o));
                  Token.mk (completed_type o in_unterminated) []
                           (suggest_option (Some o));
                  Token.mk MissingQuote [] suggest_none]
          ∧ ParseResult.result r
            = SearchParams.mk (SearchParams.text (result in_unterminated))
                              (stored_options o in_unterminated)
      else
        ParseResult.tokens r
        = tokens in_unterminated
          ++ [Token.mk Text (currentTokenText in_unterminated)
                       suggest_options;
              Token.mk MissingQuote [] suggest_none]
        ∧ ParseResult.result r
          = SearchParams.mk
              (SearchParams.text (result in_unterminated)
               ++ [currentValue in_unterminated])
              (SearchParams.options (result in_unterminated)).
Proof.
  apply (proj1 unterminated_quote [] (QUOTE :: js "unterminated")
           in_unterminated).
  - reflexivity.
  - reflexivity.
Defined.

(** ** Value coercion *)

(** C4, as the specification states it, fails for numbers: [0x10] is not
    a decimal literal and a number option accepts it, and the quoted value
    of [12] between two spaces is accepted with its spaces. *)
Lemma number_accepts_more_than_decimal_literals :
  decimal_literal (js "0x10") = false
  ∧ parse (js "count:0x10") [count_number]
    = Ok (ParseResult.mk
            [Token.mk OptionName (js "count:") suggest_none;
             Token.mk Numeric (js "0x10")
                      (suggest_option (Some count_number))]
            None
            (SearchParams.mk []
               {[ js "count" := Single (VNumber (js "0x10")) ]}))
  ∧ decimal_literal (js " 12 ") = false
  ∧ parse (js "count:" ++ [QUOTE] ++ js " 12 " ++ [QUOTE]) [count_number]
    = Ok (ParseResult.mk
            [Token.mk OptionName (js "count:") suggest_none;
             Token.mk Numeric ([QUOTE] ++ js " 12 " ++ [QUOTE])
                      (suggest_option (Some count_number))]
            None
            (SearchParams.mk []
               {[ js "count" := Single (VNumber (js " 12 ")) ]})).
Proof. split_and!; by vm_compute. Qed.

(** C4, amended: [completeOptionValue] on a non-empty value [raw].  A
    boolean option accepts exactly [yes] (as true) and [no] (as false); a
    string option accepts [raw] as it is; an enum option accepts [raw] iff
    it is one of the choices; a number option accepts [raw] iff it is a
    StringNumericLiteral, that is iff [Number(raw)] is not NaN, which
    allows white space around the literal, white space alone, [Infinity]
    and binary, octal and hexadecimal integers besides decimal literals.
    An accepted value is stored and completes a token of the type given, a
    rejected one stores nothing and completes an Invalid token. *)
Theorem value_coercion o st :
  currentOption st = Some o →
  currentValue st ≠ [] →
  SearchOption.name o ≠ PROTO →
  SearchParams.options (result st) !! HAS_OWN = None →
  (∀ w, SearchParams.options (result st) !! SearchOption.name o = Some w →
        is_Multi w = is_multiple o) →
  let raw := currentValue st in
  let accepted type v :=
    completeOptionValue st
    = Ok (with_inOptionValue false
            (with_currentOption None
               (with_options (store o v (SearchParams.options (result st)))
                  (with_currentValue [] (completeToken type st))))) in
  let rejected :=
    completeOptionValue st
    = Ok (with_inOptionValue false
            (with_currentOption None
               (with_currentValue [] (completeToken Invalid st)))) in
  match SearchOption.type o with
  | type_boolean =>
      if bool_decide (raw = js "yes") then accepted Enum (VBool true)
      else if bool_decide (raw = js "no") then accepted Enum (VBool false)
      else rejected
  | type_string => accepted Text (VString raw)
  | type_number =>
      if StringNumericLiteral raw then accepted Numeric (VNumber raw)
      else rejected
  | type_enum choices =>
      if bool_decide (raw ∈ choices) then accepted Enum (VString raw)
      else rejected
  end.
Proof.
  intros Ho Hv Hn Hh Hw. simpl.
  rewrite (completeOptionValue_eq o st Ho Hn Hh Hw).
  unfold optionValueCompleted, completed_type, stored_options, coerce.
  rewrite (bool_decide_false (currentValue st = [])) by done.
  destruct (SearchOption.type o); repeat case_bool_decide;
    try destruct (StringNumericLiteral (currentValue st)); simpl;
    try done; by destruct st as [? [] ? ? ? ? ? ? ?].
Qed.

(** C4 (amended) at the value [0x10] of the number option [count]. *)
Lemma value_coercion_witness :
  completeOptionValue after_count_0x10
  = Ok (with_inOptionValue false
          (with_currentOption None
             (with_options
                (store count_number (VNumber (js "0x10"))
                       (SearchParams.options (result after_count_0x10)))
                (with_currentValue []
                   (completeToken Numeric after_count_0x10))))).
Proof.
  apply (value_coercion count_number after_count_0x10).
  - reflexivity.
  - discriminate.
  - discriminate.
  - reflexivity.
  - intros w. vm_compute. discriminate.
Defined.

Example boolean_is_not_folded_or_trimmed :
  parse (js "b:Yes b:no") [SearchOption.mk (js "b") (Some true) type_boolean]
  = Ok (ParseResult.mk
          [Token.mk OptionName (js "b:") suggest_none;
           Token.mk Invalid (js "Yes")
             (suggest_option
                (Some (SearchOption.mk (js "b") (Some true) type_boolean)));
           Token.mk Space (js " ") suggest_options;
           Token.mk OptionName (js "b:") suggest_none;
           Token.mk Enum (js "no")
             (suggest_option
                (Some (SearchOption.mk (js "b") (Some true) type_boolean)))]
          None
          (SearchParams.mk [] {[ js "b" := Multi [VBool false] ]})).
Proof. by vm_compute. Qed.

(** ** Errors, their positions and the tokens that mark them *)

Section Errors.
Context (config : list SearchOption.t).
Context (options : gmap jsstring SearchOption.t).
Context (HT : Table config options).

Lemma Step_error_cause i c st st' :
  Step options i c st (Ok st') →
  error st' = error st
  ∨ (error st = None
     ∧ ∃ text, error st' = Some (ParseError.mk i text) ∧ error_cause c text).
Proof.
  intros Hs. unfold error_cause.
  inversion Hs; subst; rewrite ?parseError_eq; simpl; auto;
    (destruct (error st) as [e|]; [by left|right; split; [done|]]);
    eexists; (split; [reflexivity|]); try by auto 6.
  all: do 3 right; split; [set_solver|done].
Qed.

Lemma loop_error_cause p s st st' :
  WF options st →
  loop options (length p) s st = Ok st' →
  (∀ e, error st = Some e →
        ∃ c, (p ++ s) !! ParseError.position e = Some c
             ∧ error_cause c (ParseError.text e)) →
  ∀ e, error st' = Some e →
       ∃ c, (p ++ s) !! ParseError.position e = Some c
            ∧ error_cause c (ParseError.text e).
Proof.
  revert p st. induction s as [|c s IH]; intros p st Hwf; simpl.
  - by intros [= <-].
  - rewrite bind_Ok. intros (st1 & H1 & H2) Hinv.
    pose proof (step_Step config options HT (length p) c st Hwf) as Hs.
    rewrite H1 in Hs.
    replace (p ++ c :: s) with ((p ++ [c]) ++ s) by by rewrite <- app_assoc.
    apply (IH (p ++ [c]) st1).
    + by apply (Step_WF config options HT (length p) c st).
    + by rewrite length_app, Nat.add_1_r.
    + intros e He. rewrite <- app_assoc. simpl.
      destruct (Step_error_cause _ _ _ _ Hs) as [E|(_ & text & E & Hc)].
      * apply Hinv. congruence.
      * rewrite E in He. injection He as <-. exists c. simpl.
        split; [|done]. by apply list_lookup_middle.
Qed.

Lemma finish_error_kept len st st' :
  WF options st → finish len st = Ok st' →
  error st' = error st
  ∨ (error st = None
     ∧ error st' = Some (ParseError.mk len (js "missing quotation mark"))).
Proof.
  intros Hwf Hf. unfold finish in Hf.
  destruct (inQuotes st) eqn:Eq; [|destruct (inOptionValue st) eqn:Em].
  - change (inOptionValue (completeToken Text st)) with (inOptionValue st)
      in Hf.
    destruct (inOptionValue st) eqn:Em.
    + assert (WF options (completeToken Text st)) as Hwf1
        by by apply WF_completeToken.
      destruct (WF_completeOptionValue config options HT _
                  (completeToken Text st) Hwf1 Em eq_refl eq_refl)
        as (o & Ho & E).
      rewrite E, !Ok_bind, parseError_eq in Hf. injection Hf as <-. simpl.
      destruct (error st); auto.
    + rewrite !Ok_bind, parseError_eq in Hf. injection Hf as <-. simpl.
      destruct (error st); auto.
  - destruct (WF_completeOptionValue config options HT st st Hwf Em
                eq_refl eq_refl) as (o & Ho & E).
    rewrite E in Hf. injection Hf as <-. by left.
  - case_bool_decide; injection Hf as <-; by left.
Qed.

End Errors.

(** X1: an error returned by [parse] is the missing quotation mark at
    the length of the input, or it sits at the index of a code unit of the
    input and its message names that code unit: a quote, a backslash, a
    colon, or a code unit that is no escape sequence. *)
Theorem error_points_at_its_cause str config r e :
  parse str config = Ok r →
  ParseResult.error r = Some e →
  error_points_at str e.
Proof.
  intros (st & st' & Hl & Hf & Hwf & _ & _ & ->)%parse_Ok He. simpl in He.
  pose proof (make_options_Table config) as HT.
  assert (∀ e, error st = Some e →
               ∃ c, str !! ParseError.position e = Some c
                    ∧ error_cause c (ParseError.text e)) as Hinv.
  { by apply (loop_error_cause config _ HT [] str initial st). }
  destruct (finish_error_kept config _ HT _ _ _ Hwf Hf) as [E|[_ E]].
  - right. apply Hinv. congruence.
  - left. rewrite E in He. by injection He as <-.
Qed.

(** X1 at the input [a:b] without options. *)
Lemma error_points_at_its_cause_witness :
  error_points_at (js "a:b") (ParseError.mk 1 (js "unknown option")).
Proof.
  apply (error_points_at_its_cause (js "a:b") []
           (ParseResult.mk
              [Token.mk InvalidOptionName (js "a:") suggest_none;
               Token.mk Text (js "b") suggest_options]
              (Some (ParseError.mk 1 (js "unknown option")))
              (SearchParams.mk [js "b"] ∅))).
  - by vm_compute.
  - reflexivity.
Defined.

Lemma completed_token_marks_no_error o st text x :
  marks_error (Token.mk (completed_type o st) text (suggest_option x)) = false.
Proof.
  destruct (completed_type o st) eqn:E; try reflexivity;
    unfold completed_type, coerce in E;
    repeat (case_bool_decide || case_match); by simplify_eq/=.
Qed.

Lemma Step_marks_error options i c st st' :
  Step options i c st (Ok st') →
  existsb marks_error (tokens st) = has_error st →
  existsb marks_error (tokens st') = has_error st'.
Proof.
  intros Hs Hinv. unfold has_error in *.
  inversion Hs; subst; rewrite ?parseError_eq; simpl;
    rewrite ?existsb_app, ?Hinv; simpl;
    repeat match goal with
      | H : inOptionValue _ = _ |- _ => rewrite H
      | H : currentOption _ = _ |- _ => rewrite H
      end; simpl;
    rewrite ?completed_token_marks_no_error;
    destruct (error st); try destruct (inOptionValue st); done.
Qed.

Lemma loop_marks_error config options i s st st' :
  Table config options → WF options st →
  loop options i s st = Ok st' →
  existsb marks_error (tokens st) = has_error st →
  existsb marks_error (tokens st') = has_error st'.
Proof.
  intros HT. revert i st. induction s as [|c s IH]; intros i st Hwf; simpl.
  - by intros [= <-].
  - rewrite bind_Ok. intros (st1 & H1 & H2) Hinv.
    pose proof (step_Step config options HT i c st Hwf) as Hs.
    rewrite H1 in Hs.
    apply (IH (S i) st1); [by apply (Step_WF config options HT i c st)|done|].
    by apply (Step_marks_error options i c st).
Qed.

Lemma finish_marks_error config options len st st' :
  Table config options → WF options st →
  finish len st = Ok st' →
  existsb marks_error (tokens st) = has_error st →
  existsb marks_error (tokens st') = has_error st'.
Proof.
  intros HT Hwf Hf Hinv. unfold finish in Hf. unfold has_error in *.
  destruct (inQuotes st) eqn:Eq; [|destruct (inOptionValue st) eqn:Em].
  - change (inOptionValue (completeToken Text st)) with (inOptionValue st)
      in Hf.
    destruct (inOptionValue st) eqn:Em.
    + assert (WF options (completeToken Text st)) as Hwf1
        by by apply WF_completeToken.
      destruct (WF_completeOptionValue config options HT _
                  (completeToken Text st) Hwf1 Em eq_refl eq_refl)
        as (o & Ho & E).
      rewrite E, !Ok_bind, parseError_eq in Hf. injection Hf as <-. simpl.
      rewrite !existsb_app. simpl. by rewrite !orb_true_r.
    + rewrite !Ok_bind, parseError_eq in Hf. injection Hf as <-. simpl.
      rewrite !existsb_app. simpl. by rewrite !orb_true_r.
  - destruct (WF_completeOptionValue config options HT st st Hwf Em
                eq_refl eq_refl) as (o & Ho & E).
    rewrite E in Hf. injection Hf as <-. simpl.
    rewrite existsb_app, Hinv, Em. simpl.
    rewrite completed_token_marks_no_error. by destruct (error st).
  - case_bool_decide; injection Hf as <-; simpl; [done|].
    rewrite existsb_app, Hinv, Em. simpl. by destruct (error st).
Qed.

(** X2: the result of [parse] has an error exactly when one of its
    tokens marks an error: an InvalidOptionName, InvalidEscapeSequence or
    MissingQuote token, or an Invalid token whose hint is [none].  A
    rejected or missing option value (an Invalid or MissingOptionValue
    token with an option for hint) comes without an error. *)
Theorem error_iff_marking_token str config r :
  parse str config = Ok r →
  (is_Some (ParseResult.error r)
   ↔ existsb marks_error (ParseResult.tokens r) = true).
Proof.
  intros (st & st' & Hl & Hf & Hwf & _ & _ & ->)%parse_Ok. simpl.
  pose proof (make_options_Table config) as HT.
  assert (existsb marks_error (tokens st') = has_error st') as ->.
  { eapply finish_marks_error; [done..|].
    eapply loop_marks_error; [done|apply WF_initial|done|done]. }
  unfold has_error. destruct (error st'); split; done.
Qed.

(** X2 at a rejected boolean value. *)
Lemma error_iff_marking_token_witness :
  (is_Some (None : option ParseError.t)
   ↔ existsb marks_error
       [Token.mk OptionName (js "b:") suggest_none;
        Token.mk Invalid (js "maybe")
          (suggest_option
             (Some (SearchOption.mk (js "b") None type_boolean)))] = true).
Proof.
  apply (error_iff_marking_token (js "b:maybe")
           [SearchOption.mk (js "b") None type_boolean]
           (ParseResult.mk
              [Token.mk OptionName (js "b:") suggest_none;
               Token.mk Invalid (js "maybe")
                 (suggest_option
                    (Some (SearchOption.mk (js "b") None type_boolean)))]
              None (SearchParams.mk [] ∅))).
  by vm_compute.
Defined.

(** ** Round trip of an accepted suggestion *)

Lemma escape_quotes_backslashes val :
  escape_quotes (escape_backslashes val) = flat_map escape_unit val.
Proof.
  unfold escape_quotes, escape_backslashes, escape_unit.
  induction val as [|c val IH]; simpl; [done|].
  rewrite flat_map_app, IH. f_equal.
  destruct (decide (c = BACKSLASH)) as [->|Hb]; simpl; [done|].
  by rewrite app_nil_r.
Qed.

Lemma loop_plain options i w st :
  Forall plain w → inQuotes st = false →
  loop options i w st
  = Ok (with_currentValue (currentValue st ++ w)
          (with_currentTokenText (currentTokenText st ++ w) st)).
Proof.
  intros Hw. revert i st.
  induction Hw as [|c w (Hs & Hq & Hb & Hc) _ IH]; intros i st Eq; simpl.
  - rewrite !app_nil_r. by destruct st.
  - assert (step options i c st = Ok (accumulate c st)) as ->.
    { unfold step. rewrite Eq, Hs. rewrite !decide_False by done.
      by destruct (inOptionValue st). }
    rewrite Ok_bind, IH by done. simpl. by rewrite <- !app_assoc.
Qed.

Lemma loop_cons options i c s st :
  loop options i (c :: s) st
  = step options i c st ≫= loop options (S i) s.
Proof. done. Qed.

Lemma step_quoted_backslash options i st :
  inQuotes st = true → escaped st = false →
  step options i BACKSLASH st
  = Ok (with_escaped true
          (with_currentTokenText [BACKSLASH] (completeToken Text st))).
Proof. intros Eq Ee. unfold step. by rewrite Eq, Ee. Qed.

Lemma step_escape options i c decoded st :
  inQuotes st = true → escaped st = true →
  escapeSequences c = Some decoded →
  step options i c st
  = Ok (with_escaped false
          (emit EscapeSequence (currentTokenText st ++ [c])
             (with_currentValue (currentValue st ++ [decoded]) st))).
Proof. intros Eq Ee Ed. unfold step. rewrite Eq, Ee. simpl. by rewrite Ed. Qed.

Lemma step_quoted_char options i c st :
  inQuotes st = true → escaped st = false →
  c ≠ QUOTE → c ≠ BACKSLASH →
  step options i c st = Ok (accumulate c st).
Proof.
  intros Eq Ee Hq Hb. unfold step. rewrite Eq, Ee.
  by rewrite !decide_False by done.
Qed.

(** Inside quotes the escaped form of [val] is decoded to [val]. *)
Lemma loop_escaped options i val st :
  inQuotes st = true → escaped st = false →
  ∃ st', loop options i (flat_map escape_unit val) st = Ok st'
    ∧ inQuotes st' = true ∧ escaped st' = false
    ∧ currentValue st' = currentValue st ++ val
    ∧ error st' = error st ∧ result st' = result st
    ∧ inOptionValue st' = inOptionValue st
    ∧ currentOption st' = currentOption st.
Proof.
  revert i st. induction val as [|c val IH]; intros i st Eq Ee.
  - exists st. simpl. by rewrite app_nil_r.
  - change (flat_map escape_unit (c :: val))
      with (escape_unit c ++ flat_map escape_unit val).
    unfold escape_unit at 1.
    destruct (decide (c = BACKSLASH)) as [->|Hb];
      [|destruct (decide (c = QUOTE)) as [->|Hq]].
    + change ([BACKSLASH; BACKSLASH] ++ ?s)
        with (BACKSLASH :: BACKSLASH :: s).
      rewrite loop_cons, step_quoted_backslash, Ok_bind by done.
      rewrite loop_cons, (step_escape _ _ _ BACKSLASH), Ok_bind by done.
      edestruct (IH (S (S i))) as (st' & -> & ? & ? & Hv & ? & ? & ? & ?);
        [| |exists st'; split_and!; [done..| |done|done|done|done]];
        [done|done|].
      rewrite Hv. simpl. by rewrite <- app_assoc.
    + change ([BACKSLASH; QUOTE] ++ ?s) with (BACKSLASH :: QUOTE :: s).
      rewrite loop_cons, step_quoted_backslash, Ok_bind by done.
      rewrite loop_cons, (step_escape _ _ _ QUOTE), Ok_bind by done.
      edestruct (IH (S (S i))) as (st' & -> & ? & ? & Hv & ? & ? & ? & ?);
        [| |exists st'; split_and!; [done..| |done|done|done|done]];
        [done|done|].
      rewrite Hv. simpl. by rewrite <- app_assoc.
    + change ([c] ++ ?s) with (c :: s).
      rewrite loop_cons, step_quoted_char, Ok_bind by done.
      edestruct (IH (S i)) as (st' & -> & ? & ? & Hv & ? & ? & ? & ?);
        [| |exists st'; split_and!; [done..| |done|done|done|done]];
        [done|done|].
      rewrite Hv. simpl. by rewrite <- app_assoc.
Qed.

Lemma step_close_text options i st :
  inQuotes st = true → escaped st = false → inOptionValue st = false →
  step options i QUOTE st
  = Ok (with_inQuotes false
          (with_currentValue []
             (push_text (currentValue st)
                (emit Text (currentTokenText st ++ [QUOTE]) st)))).
Proof. intros Eq Ee Em. unfold step. rewrite Eq, Ee. simpl. by rewrite Em. Qed.

Lemma step_close_value options i st :
  inQuotes st = true → escaped st = false → inOptionValue st = true →
  step options i QUOTE st
  = completeOptionValue
      (with_currentTokenText (currentTokenText st ++ [QUOTE]) st)
    ≫= λ st, Ok (with_inQuotes false st).
Proof. intros Eq Ee Em. unfold step. rewrite Eq, Ee. simpl. by rewrite Em. Qed.

Lemma needs_quotes_escaped val :
  needs_quotes (flat_map escape_unit val) = needs_quotes val.
Proof.
  unfold needs_quotes. induction val as [|c val IH]; simpl; [done|].
  rewrite existsb_app, IH. f_equal. unfold escape_unit.
  destruct (decide (c = BACKSLASH)) as [->|Hb]; [done|].
  destruct (decide (c = QUOTE)) as [->|Hq]; [done|].
  simpl. by rewrite orb_false_r.
Qed.

Lemma needs_no_quotes val :
  needs_quotes val = false →
  flat_map escape_unit val = val
  ∧ Forall (λ c, is_space c = false ∧ c ≠ QUOTE ∧ c ≠ BACKSLASH) val.
Proof.
  unfold needs_quotes. induction val as [|c val IH]; simpl; [done|].
  rewrite !orb_false_iff. intros [[[Hs Hq] Hb] Hv].
  apply bool_decide_eq_false in Hq, Hb.
  destruct (IH Hv) as [-> ?]. split; [|by constructor].
  unfold escape_unit. by rewrite !decide_False by done.
Qed.

Lemma plain_without_colon val :
  needs_quotes val = false → COLON ∉ val → Forall plain val.
Proof.
  intros [_ Hv]%needs_no_quotes Hc.
  apply Forall_forall. intros c Hin.
  rewrite Forall_forall in Hv. destruct (Hv c Hin) as (? & ? & ?).
  split_and!; try done. by intros ->.
Qed.

(** X3: the text that [suggestionSelect] writes for a non-empty name,
    parsed on its own, is one free-text term, the name itself, without an
    error, provided the name has no colon or gets quoted (it holds white
    space, a quote or a backslash). *)
Theorem accepted_text_round_trip val config :
  val ≠ [] →
  (COLON ∈ val → needs_quotes val = true) →
  ∃ r, parse (suggestionSelect_text val) config = Ok r
       ∧ ParseResult.error r = None
       ∧ ParseResult.result r = SearchParams.mk [val] ∅.
Proof.
  intros Hne Hc. unfold suggestionSelect_text, parse.
  rewrite escape_quotes_backslashes, needs_quotes_escaped.
  destruct (needs_quotes val) eqn:Hn.
  - change ([QUOTE] ++ ?s) with (QUOTE :: s).
    rewrite loop_cons.
    assert (step (make_options config) 0 QUOTE initial
            = Ok (with_currentTokenText [QUOTE] (with_inQuotes true initial)))
      as -> by done.
    rewrite Ok_bind, loop_app.
    destruct (loop_escaped (make_options config) 1 val
                (with_currentTokenText [QUOTE] (with_inQuotes true initial)))
      as (st & -> & Eq & Ee & Hv & Her & Hr & Hm & Ho); [done..|].
    rewrite Ok_bind, loop_cons, step_close_text, Ok_bind by done.
    change (loop ?o ?i [] ?s) with (Ok s). rewrite Ok_bind.
    unfold finish. simpl. rewrite Hm. simpl.
    eexists. split; [reflexivity|]. simpl. by rewrite Her, Hr, Hv.
  - assert (COLON ∉ val) as Hc' by (intros H; by apply Hc in H).
    destruct (needs_no_quotes val Hn) as [-> _].
    rewrite loop_plain by (by apply plain_without_colon || done).
    rewrite Ok_bind. unfold finish. simpl.
    rewrite bool_decide_false by done. simpl.
    eexists. split; [reflexivity|]. done.
Qed.

(** X3 at a name with a space, a quote and a colon. *)
Lemma accepted_text_round_trip_witness :
  ∃ r, parse (suggestionSelect_text (js "a b:" ++ [QUOTE])) [tag_single]
       = Ok r
       ∧ ParseResult.error r = None
       ∧ ParseResult.result r
         = SearchParams.mk [js "a b:" ++ [QUOTE]] ∅.
Proof.
  apply (accepted_text_round_trip (js "a b:" ++ [QUOTE]) [tag_single]).
  - discriminate.
  - reflexivity.
Defined.

(** The colon after a plain word that names an option which is not set
    yet. *)
Lemma step_first_option_name options i (name : jsstring) o :
  name ≠ [] →
  options !! HAS_OWN = None →
  options !! name = Some o →
  step options i COLON
    (mkState [] (SearchParams.mk [] ∅) None name name false false false None)
  = Ok (mkState [Token.mk OptionName (name ++ [COLON]) suggest_none]
                (SearchParams.mk [] ∅) None [] [] false false true (Some o)).
Proof.
  intros Hne Hh Ho. unfold step. simpl.
  rewrite bool_decide_false by done.
  unfold obj_hasOwnProperty. rewrite Hh. simpl. rewrite Ho, !lookup_empty.
  rewrite bool_decide_true by done.
  rewrite bool_decide_false by (by intros [? [=]]).
  by destruct (is_multiple o).
Qed.

(** X4: the text that [suggestionSelect] writes for a value, put after
    the name of an option and its colon, gives that option the value as
    [coerce] accepts it, without an error and without free text; an empty
    or rejected value sets nothing.  The name is a non-empty word of the
    schema without white space, quote, backslash and colon, the schema has
    no option named [hasOwnProperty], and the value has no colon or gets
    quoted. *)
Theorem accepted_value_round_trip config (name : jsstring) o val :
  make_options config !! name = Some o →
  make_options config !! HAS_OWN = None →
  name ≠ [] → Forall plain name →
  (COLON ∈ val → needs_quotes val = true) →
  ∃ r, parse (name ++ COLON :: suggestionSelect_text val) config = Ok r
       ∧ ParseResult.error r = None
       ∧ SearchParams.text (ParseResult.result r) = []
       ∧ SearchParams.options (ParseResult.result r)
         = match accepted_value o val with
           | Some v => store o v ∅
           | None => ∅
           end.
Proof.
  intros Ho Hh Hne Hplain Hc.
  destruct (make_options_Table config _ _ Ho) as (Hname & Hproto & _).
  assert (SearchOption.name o ≠ PROTO) as Hn by by rewrite Hname.
  unfold parse. rewrite loop_app, loop_plain by done.
  rewrite Ok_bind, loop_cons.
  change (with_currentValue _ _)
    with (mkState [] (SearchParams.mk [] ∅) None name name
                  false false false None).
  rewrite (step_first_option_name _ _ name o), Ok_bind by done.
  set (st2 := mkState _ _ _ _ _ _ _ _ _).
  unfold suggestionSelect_text.
  rewrite escape_quotes_backslashes, needs_quotes_escaped.
  destruct (needs_quotes val) eqn:Hq.
  - change ([QUOTE] ++ ?s) with (QUOTE :: s).
    rewrite loop_cons.
    assert (step (make_options config) (S (length name + 0)) QUOTE st2
            = Ok (with_currentTokenText [QUOTE] (with_inQuotes true st2)))
      as -> by done.
    rewrite Ok_bind, loop_app.
    destruct (loop_escaped (make_options config)
                (S (S (length name + 0))) val
                (with_currentTokenText [QUOTE] (with_inQuotes true st2)))
      as (st & -> & Eq & Ee & Hv & Her & Hr & Hm & Hco); [done..|].
    simpl in Hv, Her, Hr, Hm, Hco.
    rewrite Ok_bind, loop_cons, step_close_value by done.
    rewrite (completeOptionValue_eq o); [|done|done|by (simpl; rewrite Hr)|].
    2:{ simpl. rewrite Hr. simpl. intros w. by rewrite lookup_empty. }
    rewrite !Ok_bind. change (loop ?o ?i [] ?s) with (Ok s).
    rewrite Ok_bind. unfold finish. simpl.
    eexists. split; [reflexivity|]. simpl.
    unfold stored_options, accepted_value. simpl. rewrite Her, Hr, Hv. simpl.
    split_and!; try done.
    case_bool_decide; [done|]. by destruct (snd (coerce o val)).
  - assert (COLON ∉ val) as Hc' by (intros H; by apply Hc in H).
    destruct (needs_no_quotes val Hq) as [-> _].
    rewrite loop_plain by (by apply plain_without_colon || done).
    rewrite Ok_bind. unfold finish. simpl.
    rewrite (completeOptionValue_eq o); [|done|done|done|].
    2:{ simpl. intros w. by rewrite lookup_empty. }
    eexists. split; [reflexivity|]. simpl.
    unfold stored_options, accepted_value. simpl.
    split_and!; try done.
    case_bool_decide; [done|]. by destruct (snd (coerce o val)).
Qed.

(** X4 at the value [a b] of a multiple string option [tag]. *)
Lemma accepted_value_round_trip_witness :
  ∃ r, parse (js "tag" ++ COLON :: suggestionSelect_text (js "a b"))
             [tag_multiple] = Ok r
       ∧ ParseResult.error r = None
       ∧ SearchParams.text (ParseResult.result r) = []
       ∧ SearchParams.options (ParseResult.result r)
         = match accepted_value tag_multiple (js "a b") with
           | Some v => store tag_multiple v ∅
           | None => ∅
           end.
Proof.
  apply (accepted_value_round_trip [tag_multiple] (js "tag") tag_multiple
           (js "a b")).
  - by vm_compute.
  - by vm_compute.
  - discriminate.
  - repeat constructor; by vm_compute.
  - reflexivity.
Defined.

(** ** Moving through the suggestion list *)

(** X5: with a valid selection, [suggestionUp] and [suggestionDown] leave
    a valid selection (they wrap around at both ends), and so does
    [suggestionHover] at any index that is not negative when there is an
    entry. *)
Theorem selection_stays_valid {E} (a : AutocompleteState.t E) :
  selection_valid a →
  (∀ a', suggestionUp (Some a) = Some a' → selection_valid a')
  ∧ (∀ a', suggestionDown (Some a) = Some a' → selection_valid a')
  ∧ (∀ idx a', (0 ≤ idx)%Z → suggestionHover idx (Some a) = Some a' →
               selection_valid a').
Proof.
  unfold selection_valid, entries_length. intros Hv.
  split_and!; [intros a' [= <-]|intros a' [= <-]|intros idx a' Hi [= <-]];
    simpl; unfold entries_length;
    rewrite Z.rem_mod_nonneg by lia; apply Z.mod_pos_bound; lia.
Qed.

(** X5 at the last of three entries. *)
Lemma selection_stays_valid_witness :
  (∀ a', suggestionUp
           (Some (AutocompleteState.mk
                    [AutocompleteEntry.mk (js "yes") None;
                     AutocompleteEntry.mk (js "no") None;
                     AutocompleteEntry.mk (js "x") None]
                    tt (Token.mk Space [SPACE] suggest_options) 2%Z))
         = Some a' → selection_valid a')
  ∧ (∀ a', suggestionDown
             (Some (AutocompleteState.mk
                      [AutocompleteEntry.mk (js "yes") None;
                       AutocompleteEntry.mk (js "no") None;
                       AutocompleteEntry.mk (js "x") None]
                      tt (Token.mk Space [SPACE] suggest_options) 2%Z))
           = Some a' → selection_valid a')
  ∧ (∀ idx a', (0 ≤ idx)%Z →
       suggestionHover idx
         (Some (AutocompleteState.mk
                  [AutocompleteEntry.mk (js "yes") None;
                   AutocompleteEntry.mk (js "no") None;
                   AutocompleteEntry.mk (js "x") None]
                  tt (Token.mk Space [SPACE] suggest_options) 2%Z))
       = Some a' → selection_valid a').
Proof.
  apply (selection_stays_valid
           (AutocompleteState.mk
              [AutocompleteEntry.mk (js "yes") None;
               AutocompleteEntry.mk (js "no") None;
               AutocompleteEntry.mk (js "x") None]
              tt (Token.mk Space [SPACE] suggest_options) 2%Z)).
  unfold selection_valid, entries_length. simpl. lia.
Defined.

Lemma rem_next (n s : Z) :
  (0 ≤ s < n)%Z →
  Z.rem (n + s + 1) n = if decide (s + 1 = n)%Z then 0%Z else (s + 1)%Z.
Proof.
  intros Hs. rewrite Z.rem_mod_nonneg by lia. case_decide.
  - replace (n + s + 1)%Z with (2 * n)%Z by lia. apply Z.mod_mul. lia.
  - replace (n + s + 1)%Z with (s + 1 + 1 * n)%Z by lia.
    rewrite Z.mod_add by lia. apply Z.mod_small. lia.
Qed.

Lemma rem_previous (n s : Z) :
  (0 ≤ s < n)%Z →
  Z.rem (n + s - 1) n = if decide (s = 0)%Z then (n - 1)%Z else (s - 1)%Z.
Proof.
  intros Hs. rewrite Z.rem_mod_nonneg by lia. case_decide.
  - subst s. replace (n + 0 - 1)%Z with (n - 1)%Z by lia.
    apply Z.mod_small. lia.
  - replace (n + s - 1)%Z with (s - 1 + 1 * n)%Z by lia.
    rewrite Z.mod_add by lia. apply Z.mod_small. lia.
Qed.

(** X6: on a valid selection [suggestionUp] and [suggestionDown] undo
    each other. *)
Theorem up_and_down_are_inverse {E} (a : AutocompleteState.t E) :
  selection_valid a →
  suggestionUp (suggestionDown (Some a)) = Some a
  ∧ suggestionDown (suggestionUp (Some a)) = Some a.
Proof.
  unfold selection_valid, entries_length. intros Hv.
  destruct a as [entries anchor token selection]. simpl in *.
  unfold with_selection, entries_length. simpl.
  split; do 2 f_equal.
  - rewrite rem_next by lia. case_decide.
    + rewrite rem_previous by lia. rewrite decide_True by done. lia.
    + rewrite rem_previous by lia. rewrite decide_False by lia. lia.
  - rewrite rem_previous by lia. case_decide.
    + rewrite rem_next by lia. rewrite decide_True by lia. lia.
    + rewrite rem_next by lia. rewrite decide_False by lia. lia.
Qed.

(** X6 at the first of two entries. *)
Lemma up_and_down_are_inverse_witness :
  suggestionUp
    (suggestionDown
       (Some (AutocompleteState.mk
                [AutocompleteEntry.mk (js "yes") None;
                 AutocompleteEntry.mk (js "no") None]
                tt (Token.mk Space [SPACE] suggest_options) 0%Z)))
  = Some (AutocompleteState.mk
            [AutocompleteEntry.mk (js "yes") None;
             AutocompleteEntry.mk (js "no") None]
            tt (Token.mk Space [SPACE] suggest_options) 0%Z)
  ∧ suggestionDown
      (suggestionUp
         (Some (AutocompleteState.mk
                  [AutocompleteEntry.mk (js "yes") None;
                   AutocompleteEntry.mk (js "no") None]
                  tt (Token.mk Space [SPACE] suggest_options) 0%Z)))
    = Some (AutocompleteState.mk
              [AutocompleteEntry.mk (js "yes") None;
               AutocompleteEntry.mk (js "no") None]
              tt (Token.mk Space [SPACE] suggest_options) 0%Z).
Proof.
  apply (up_and_down_are_inverse
           (AutocompleteState.mk
              [AutocompleteEntry.mk (js "yes") None;
               AutocompleteEntry.mk (js "no") None]
              tt (Token.mk Space [SPACE] suggest_options) 0%Z)).
  unfold selection_valid, entries_length. simpl. lia.
Defined.

(** ** The table of options, again *)

Lemma fold_options_lookup (l : list SearchOption.t) acc (k : jsstring) :
  k ≠ PROTO →
  fold_left (λ options option,
               obj_set (SearchOption.name option) option options) l acc !! k
  = match last (filter (λ o, SearchOption.name o = k) l) with
    | Some o => Some o
    | None => acc !! k
    end.
Proof.
  intros Hk. revert acc. induction l as [|x l IH]; intros acc; simpl; [done|].
  rewrite IH, obj_set_lookup. rewrite filter_cons.
  destruct (decide (SearchOption.name x = k)) as [E|E].
  - rewrite last_cons.
    destruct (last (filter _ l)); [done|].
    rewrite decide_True; [done|]. split; [congruence|done].
  - destruct (last (filter _ l)); [done|].
    rewrite decide_False; [done|]. by intros [_ ?].
Qed.

(** X7: the table that [parse] builds holds, under a name, the last
    option of the schema with that name, and nothing under [__proto__]:
    an option named [__proto__] is never recognised. *)
Theorem make_options_last_wins config (k : jsstring) :
  make_options config !! k
  = if decide (k = PROTO) then None
    else last (filter (λ o, SearchOption.name o = k) config).
Proof.
  case_decide as Hk.
  - subst k. destruct (make_options config !! PROTO) as [o|] eqn:E; [|done].
    by apply make_options_Table in E as (_ & ? & _).
  - unfold make_options. rewrite fold_options_lookup by done.
    by destruct (last _).
Qed.

(** ** The token under the caret *)

Lemma text_length_cons t tokens :
  text_length (t :: tokens)
  = (length (Token.content t) + text_length tokens)%nat.
Proof. unfold text_length. simpl. by rewrite length_app. Qed.

Lemma text_length_app a b :
  text_length (a ++ b) = (text_length a + text_length b)%nat.
Proof.
  unfold text_length. by rewrite map_app, concat_app, length_app.
Qed.

(** The loop ends at the length of the text; with a collapsed caret it
    leaves the token whose span holds the caret, if there is one. *)
Lemma caret_loop_collapsed tokens p off found :
  ∃ found',
    caret_loop tokens p p off found
    = ((off + text_length tokens)%nat, found')
    ∧ ((∃ before t after,
          tokens = before ++ t :: after
          ∧ (off + text_length before ≤ p
             < off + text_length before + length (Token.content t))%nat
          ∧ found' = Some t)
       ∨ ((p < off ∨ off + text_length tokens ≤ p)%nat ∧ found' = found)).
Proof.
  revert off found. induction tokens as [|t tokens IH]; intros off found.
  - exists found. simpl. split; [by rewrite Nat.add_0_r|].
    right. split; [|done]. unfold text_length. simpl. lia.
  - simpl. rewrite text_length_cons, Nat.eqb_refl, andb_true_r.
    destruct ((off <=? p)%nat && (p <? off + length (Token.content t))%nat)
      eqn:Hc.
    + apply andb_true_iff in Hc as [H1%Nat.leb_le H2%Nat.ltb_lt].
      destruct (IH (off + length (Token.content t))%nat (Some t))
        as (found' & -> & [(b & t' & a & -> & Hs & ->)|[Hs ->]]).
      * lia.
      * exists (Some t). split; [f_equal; lia|]. left.
        exists [], t, tokens. split_and!; try done;
          unfold text_length; simpl; lia.
    + apply andb_false_iff in Hc.
      rewrite Nat.leb_gt, Nat.ltb_ge in Hc.
      destruct (IH (off + length (Token.content t))%nat found)
        as (found' & -> & [(b & t' & a & -> & Hs & ->)|[Hs ->]]).
      * exists (Some t'). split; [f_equal; lia|]. left.
        exists (t :: b), t', a. rewrite text_length_cons.
        split_and!; try done; lia.
      * exists found. split; [f_equal; lia|]. right. split; [lia|done].
Qed.

Lemma caret_token_collapsed tokens p :
  tokens ≠ [] →
  ∃ before t after,
    tokens = before ++ t :: after
    ∧ caret_token tokens p p = Some t
    ∧ ((text_length before ≤ p
        < text_length before + length (Token.content t))%nat
       ∨ (after = [] ∧ text_length tokens ≤ p)%nat).
Proof.
  intros Hne.
  assert (caret_token tokens p p
          = let '(currentOffset, autocompleteToken) :=
              caret_loop tokens p p 0 None in
            if (currentOffset <=? p)%nat then last tokens
            else autocompleteToken) as ->
    by by destruct tokens.
  destruct (caret_loop_collapsed tokens p 0 None)
    as (found & -> & [(b & t & a & -> & Hs & ->)|[Hs ->]]).
  - exists b, t, a. split; [done|]. split; [|left; lia].
    rewrite text_length_app, text_length_cons.
    destruct (Nat.leb_spec (0 + (text_length b
                + (length (Token.content t) + text_length a))) p);
      [lia|done].
  - destruct (exists_last Hne) as (before & t & ->).
    exists before, t, []. split; [done|].
    assert (text_length (before ++ [t]) ≤ p)%nat as Hp by lia.
    split; [|by right].
    destruct (Nat.leb_spec (0 + text_length (before ++ [t])) p); [|lia].
    by rewrite last_snoc.
Qed.

(** X8: with a collapsed caret at [p] and at least one token,
    [handleInput] takes for the suggestions the token whose span of the
    text holds [p], a token with content; past the end of the text it
    takes the last token. *)
Theorem caret_token_holds_caret tokens p :
  tokens ≠ [] →
  ∃ before t after,
    tokens = before ++ t :: after
    ∧ caret_token tokens p p = Some t
    ∧ ((text_length before ≤ p
        < text_length before + length (Token.content t))%nat
       ∨ (after = [] ∧ text_length tokens ≤ p)%nat).
Proof. apply caret_token_collapsed. Qed.

(** X8 at a caret in the second of two tokens. *)
Lemma caret_token_holds_caret_witness :
  ∃ before t after,
    [Token.mk Text (js "ab") suggest_options;
     Token.mk Space [SPACE] suggest_options] = before ++ t :: after
    ∧ caret_token [Token.mk Text (js "ab") suggest_options;
                   Token.mk Space [SPACE] suggest_options] 2 2 = Some t
    ∧ ((text_length before ≤ 2
        < text_length before + length (Token.content t))%nat
       ∨ (after = []
          ∧ text_length [Token.mk Text (js "ab") suggest_options;
                         Token.mk Space [SPACE] suggest_options] ≤ 2)%nat).
Proof.
  apply (caret_token_holds_caret
           [Token.mk Text (js "ab") suggest_options;
            Token.mk Space [SPACE] suggest_options] 2).
  discriminate.
Defined.

(** A selection that is not collapsed and starts inside the text has no
    token for suggestions. *)
Lemma caret_loop_range tokens startPos endPos off found :
  startPos ≠ endPos →
  caret_loop tokens startPos endPos off found
  = ((off + text_length tokens)%nat, found).
Proof.
  intros Hne. revert off found.
  induction tokens as [|t tokens IH]; intros off found; simpl.
  - unfold text_length. simpl. by rewrite Nat.add_0_r.
  - rewrite (proj2 (Nat.eqb_neq _ _) Hne), andb_false_r, IH.
    rewrite text_length_cons. f_equal. lia.
Qed.

(** X9: a selection that spans code units and starts inside the text
    gives no token, hence no suggestions. *)
Theorem selection_range_has_no_token tokens startPos endPos :
  startPos ≠ endPos →
  (startPos < text_length tokens)%nat →
  caret_token tokens startPos endPos = None.
Proof.
  intros Hne Hlt. unfold caret_token. destruct tokens as [|t tokens]; [done|].
  rewrite caret_loop_range by done.
  destruct (Nat.leb_spec (0 + text_length (t :: tokens)) startPos);
    [lia|done].
Qed.

(** X9 at the selection of the first two of three code units. *)
Lemma selection_range_has_no_token_witness :
  caret_token [Token.mk Text (js "abc") suggest_options] 0 2 = None.
Proof.
  apply (selection_range_has_no_token
           [Token.mk Text (js "abc") suggest_options] 0 2).
  - discriminate.
  - unfold text_length. simpl. lia.
Defined.

Lemma parse_blanked str config r :
  parse str config = Ok r →
  keeps_pending (make_options config) 0 str initial = true →
  Forall2 blanked str (concat (map Token.content (ParseResult.tokens r))).
Proof.
  intros (st & st' & Hl & Hf & Hwf & _ & Hp & ->)%parse_Ok Hk. simpl.
  pose proof (make_options_Table config) as HT.
  destruct (loop_raw config _ HT 0 str initial st (WF_initial _) Hl Hk)
    as (s' & Hr & Hb).
  by rewrite (finish_raw config _ HT _ st st' Hwf Hp Hf), Hr.
Qed.

(** X10: with a collapsed caret on a code unit of the input, the token
    that [handleInput] takes from the tokens of [parse] holds that code
    unit at the offset of the caret in the token, as it is or as a space
    when it is white space.  (The scan is one that never overwrites pending
    text, see [keeps_pending].) *)
Theorem caret_token_holds_character str config r p c :
  parse str config = Ok r →
  keeps_pending (make_options config) 0 str initial = true →
  str !! p = Some c →
  ∃ before t after c',
    ParseResult.tokens r = before ++ t :: after
    ∧ caret_token (ParseResult.tokens r) p p = Some t
    ∧ Token.content t !! (p - text_length before)%nat = Some c'
    ∧ blanked c c'.
Proof.
  intros Hr Hk Hc. pose proof (parse_blanked str config r Hr Hk) as Hb.
  destruct (Forall2_lookup_l _ _ _ _ _ Hb Hc) as (c' & Hc' & Hbl).
  pose proof (Forall2_length _ _ _ Hb) as Hlen.
  apply lookup_lt_Some in Hc.
  assert (ParseResult.tokens r ≠ []) as Hne.
  { intros E. rewrite E in Hlen. simpl in Hlen. lia. }
  destruct (caret_token_collapsed (ParseResult.tokens r) p Hne)
    as (b & t & a & E & Ht & [Hs|[_ Hs]]).
  - exists b, t, a, c'. split_and!; try done.
    rewrite E, map_app, concat_app in Hc'. simpl in Hc'.
    rewrite lookup_app_r in Hc' by (unfold text_length in Hs; lia).
    rewrite lookup_app_l in Hc' by (unfold text_length in Hs; lia).
    done.
  - unfold text_length in Hs. lia.
Qed.

(** X10 at the tab of [a], tab, [b]. *)
Lemma caret_token_holds_character_witness :
  ∃ before t after c',
    [Token.mk Text (js "a") suggest_options;
     Token.mk Space [SPACE] suggest_options;
     Token.mk Text (js "b") suggest_options] = before ++ t :: after
    ∧ caret_token [Token.mk Text (js "a") suggest_options;
                   Token.mk Space [SPACE] suggest_options;
                   Token.mk Text (js "b") suggest_options] 1 1 = Some t
    ∧ Token.content t !! (1 - text_length before)%nat = Some c'
    ∧ blanked 9 c'.
Proof.
  apply (caret_token_holds_character (js "a" ++ [9] ++ js "b") []
           (ParseResult.mk
              [Token.mk Text (js "a") suggest_options;
               Token.mk Space [SPACE] suggest_options;
               Token.mk Text (js "b") suggest_options]
              None (SearchParams.mk [js "a"; js "b"] ∅)) 1 9).
  - by vm_compute.
  - by vm_compute.
  - reflexivity.
Defined.

(** ** Suggestions for the token under the caret *)






(** X12: every entry with a non-empty name that is suggested for a
    boolean or enum option names a value that [completeOptionValue]
    accepts: with that name as the pending value of the option it stores a
    value and completes an Enum token.  For an enum option the content of
    the token is a prefix of the name.  (An enum choice that is the empty
    string is suggested as well; as a value it is a missing one.) *)
Theorem suggested_values_are_accepted title provider options t o entries e
    st :
  Token.suggest t = suggest_option (Some o) →
  SearchOption.type o ≠ type_number →
  SearchOption.type o ≠ type_string →
  autocompleteEntries title provider options t = Ok entries →
  e ∈ entries →
  AutocompleteEntry.name e ≠ [] →
  currentOption st = Some o →
  currentValue st = AutocompleteEntry.name e →
  SearchOption.name o ≠ PROTO →
  SearchParams.options (result st) !! HAS_OWN = None →
  (∀ w, SearchParams.options (result st) !! SearchOption.name o = Some w →
        is_Multi w = is_multiple o) →
  (∃ v,
     completeOptionValue st
     = Ok (with_inOptionValue false
             (with_currentOption None
                (with_options
                   (store o v (SearchParams.options (result st)))
                   (with_currentValue [] (completeToken Enum st))))))
  ∧ (SearchOption.type o ≠ type_boolean →
     Token.content t `prefix_of` AutocompleteEntry.name e).
Proof.
  intros Hs Hn Hst He Hin Hne Ho Hv Hp Hh Hw.
  rewrite (completeOptionValue_eq o st Ho Hp Hh Hw).
  unfold optionValueCompleted, completed_type, stored_options, coerce.
  rewrite Hv, (bool_decide_false (AutocompleteEntry.name e = [])) by done.
  unfold autocompleteEntries in He. rewrite Hs in He.
  destruct (SearchOption.type o) as [| |choices|]; try done.
  - injection He as <-.
    apply list_elem_of_fmap in Hin as (c & -> & Hin).
    apply list_elem_of_filter in Hin as [Hpre Hin]. simpl. split.
    + rewrite bool_decide_true by done. simpl.
      exists (VString c). by destruct st as [? [] ? ? ? ? ? ? ?].
    + intros _. unfold startsWith in Hpre.
      by apply bool_decide_eq_true in Hpre.
  - injection He as <-. split; [|done].
    apply elem_of_cons in Hin as [->|Hin];
      [exists (VBool true); by destruct st as [? [] ? ? ? ? ? ? ?]|].
    apply elem_of_cons in Hin as [->|Hin];
      [exists (VBool false); by destruct st as [? [] ? ? ? ? ? ? ?]|].
    by apply elem_of_nil in Hin.
Qed.

(** X12 at the enum option [k] with three choices, the prefix [b] and the
    entry [baz]. *)
Lemma suggested_values_are_accepted_witness :
  (∃ v,
     completeOptionValue after_k_baz
     = Ok (with_inOptionValue false
             (with_currentOption None
                (with_options
                   (store k_enum v
                          (SearchParams.options (result after_k_baz)))
                   (with_currentValue []
                      (completeToken Enum after_k_baz))))))
  ∧ (SearchOption.type k_enum ≠ type_boolean →
     Token.content (Token.mk Invalid (js "b") (suggest_option (Some k_enum)))
     `prefix_of`
     AutocompleteEntry.name (AutocompleteEntry.mk (js "baz") None)).
Proof.
  apply (suggested_values_are_accepted (λ _, None) (λ _, None) []
           (Token.mk Invalid (js "b") (suggest_option (Some k_enum)))
           k_enum
           [AutocompleteEntry.mk (js "bar") None;
            AutocompleteEntry.mk (js "baz") None]
           (AutocompleteEntry.mk (js "baz") None) after_k_baz).
  - reflexivity.
  - discriminate.
  - discriminate.
  - by vm_compute.
  - vm_compute. set_solver.
  - discriminate.
  - reflexivity.
  - reflexivity.
  - discriminate.
  - reflexivity.
  - intros w. vm_compute. discriminate.
Defined.

(** The entry excluded in X12: the empty string as a choice of an enum
    option is suggested, and the text written for it after the colon is a
    missing value. *)
Example empty_choice_is_a_missing_value :
  autocompleteEntries (λ _, None) (λ _, None) []
    (Token.mk MissingOptionValue []
       (suggest_option
          (Some (SearchOption.mk (js "k") None (type_enum [[]; js "a"])))))
  = Ok [AutocompleteEntry.mk [] None; AutocompleteEntry.mk (js "a") None]
  ∧ parse (js "k:" ++ suggestionSelect_text [])
          [SearchOption.mk (js "k") None (type_enum [[]; js "a"])]
    = Ok (ParseResult.mk
            [Token.mk OptionName (js "k:") suggest_none;
             Token.mk MissingOptionValue []
               (suggest_option
                  (Some (SearchOption.mk (js "k") None
                           (type_enum [[]; js "a"]))))]
            None (SearchParams.mk [] ∅)).
Proof. split; by vm_compute. Qed.

Lemma plain_name_needs_no_quotes (name : jsstring) :
  Forall plain name → needs_quotes (name ++ [COLON]) = false.
Proof.
  intros Hn. unfold needs_quotes. rewrite existsb_app. simpl.
  rewrite orb_false_r. apply not_true_iff_false.
  intros (c & Hin & Hc)%existsb_exists.
  rewrite Forall_forall in Hn. apply list_elem_of_In in Hin.
  destruct (Hn c Hin) as (Hs & Hq & Hb & _).
  rewrite Hs, !bool_decide_false in Hc by done. done.
Qed.

Lemma schema_name_in_table config o :
  o ∈ config → SearchOption.name o ≠ PROTO →
  ∃ o', make_options config !! SearchOption.name o = Some o'.
Proof.
  intros Hin Hp. unfold make_options.
  rewrite fold_options_lookup by done.
  assert (o ∈ filter (λ x, SearchOption.name x = SearchOption.name o) config)
    as Hf by by apply list_elem_of_filter.
  destruct (last _) as [o'|] eqn:E; [by exists o'|].
  apply last_None in E. rewrite E in Hf. by apply elem_of_nil in Hf.
Qed.

(** X13: with a schema of plain names, every entry suggested at a token
    with the hint [options] is the name of an option of the schema
    followed by a colon, and the text that [suggestionSelect] writes for
    it, parsed on its own, is that option name and a missing option value,
    without an error: the option is recognised and waits for its value. *)
Theorem suggested_option_is_recognised title provider config t entries e :
  plain_names config →
  Token.suggest t = suggest_options →
  autocompleteEntries title provider config t = Ok entries →
  e ∈ entries →
  ∃ o o',
    o ∈ config
    ∧ AutocompleteEntry.name e = SearchOption.name o ++ [COLON]
    ∧ make_options config !! SearchOption.name o = Some o'
    ∧ parse (suggestionSelect_text (AutocompleteEntry.name e)) config
      = Ok (ParseResult.mk
              [Token.mk OptionName (AutocompleteEntry.name e) suggest_none;
               Token.mk MissingOptionValue [] (suggest_option (Some o'))]
              None (SearchParams.mk [] ∅)).
Proof.
  intros Hplain Hs. unfold autocompleteEntries. rewrite Hs.
  intros [= <-] (o & -> & Hin)%list_elem_of_fmap.
  apply list_elem_of_filter in Hin as [_ Hin].
  destruct (Hplain o Hin) as (Hne & Hn & Hh & Hp).
  destruct (schema_name_in_table config o Hin Hp) as [o' Ho'].
  exists o, o'. split_and!; try done. simpl.
  assert (make_options config !! HAS_OWN = None) as Hown.
  { apply make_options_unshadowed. intros x Hx.
    by destruct (Hplain x Hx) as (_ & _ & ? & _). }
  destruct (make_options_Table config _ _ Ho') as (Hname & _ & _).
  unfold suggestionSelect_text.
  rewrite escape_quotes_backslashes, needs_quotes_escaped.
  rewrite plain_name_needs_no_quotes by done.
  destruct (needs_no_quotes _ (plain_name_needs_no_quotes _ Hn)) as [-> _].
  unfold parse. rewrite loop_app, loop_plain by done.
  rewrite Ok_bind, loop_cons.
  change (with_currentValue _ _)
    with (mkState [] (SearchParams.mk [] ∅) None (SearchOption.name o)
                  (SearchOption.name o) false false false None).
  rewrite (step_first_option_name _ _ _ o'), Ok_bind by done.
  change (loop ?x ?i [] ?s) with (Ok s). rewrite Ok_bind.
  unfold finish. simpl. reflexivity.
Qed.

(** X13 at the schema with the option [tag] and an empty token. *)
Lemma suggested_option_is_recognised_witness :
  ∃ o o',
    o ∈ [tag_single]
    ∧ AutocompleteEntry.name (AutocompleteEntry.mk (js "tag:") None)
      = SearchOption.name o ++ [COLON]
    ∧ make_options [tag_single] !! SearchOption.name o = Some o'
    ∧ parse (suggestionSelect_text
               (AutocompleteEntry.name
                  (AutocompleteEntry.mk (js "tag:") None))) [tag_single]
      = Ok (ParseResult.mk
              [Token.mk OptionName
                 (AutocompleteEntry.name
                    (AutocompleteEntry.mk (js "tag:") None)) suggest_none;
               Token.mk MissingOptionValue [] (suggest_option (Some o'))]
              None (SearchParams.mk [] ∅)).
Proof.
  apply (suggested_option_is_recognised (λ _, None) (λ _, None) [tag_single]
           (Token.mk Text (js "t") suggest_options)
           [AutocompleteEntry.mk (js "tag:") None]).
  - intros o Ho. apply list_elem_of_singleton in Ho as ->.
    split_and!; [discriminate|repeat constructor; by vm_compute
                |discriminate|discriminate].
  - reflexivity.
  - by vm_compute.
  - by left.
Defined.

(** ** Unknown options *)

Lemma Step_tokens_grow options i c st st' :
  Step options i c st (Ok st') → tokens st `prefix_of` tokens st'.
Proof.
  intros Hs.
  inversion Hs; subst; rewrite ?parseError_eq; simpl;
    rewrite <- ?app_assoc; try done; by apply prefix_app_r.
Qed.

Lemma loop_tokens_grow config options i s st st' :
  Table config options → WF options st →
  loop options i s st = Ok st' → tokens st `prefix_of` tokens st'.
Proof.
  intros HT. revert i st. induction s as [|c s IH]; intros i st Hwf; simpl.
  - by intros [= <-].
  - rewrite bind_Ok. intros (st1 & H1 & H2).
    pose proof (step_Step config options HT i c st Hwf) as Hs.
    rewrite H1 in Hs. etrans; [by eapply Step_tokens_grow|].
    apply (IH (S i) st1); [|done].
    by apply (Step_WF config options HT i c st).
Qed.

Lemma finish_tokens_grow config options len st st' :
  Table config options → WF options st →
  finish len st = Ok st' → tokens st `prefix_of` tokens st'.
Proof.
  intros HT Hwf Hf. unfold finish in Hf.
  destruct (inQuotes st) eqn:Eq; [|destruct (inOptionValue st) eqn:Em].
  - change (inOptionValue (completeToken Text st)) with (inOptionValue st)
      in Hf.
    destruct (inOptionValue st) eqn:Em.
    + assert (WF options (completeToken Text st)) as Hwf1
        by by apply WF_completeToken.
      destruct (WF_completeOptionValue config options HT _
                  (completeToken Text st) Hwf1 Em eq_refl eq_refl)
        as (o & Ho & E).
      rewrite E, !Ok_bind, parseError_eq in Hf. injection Hf as <-. simpl.
      rewrite <- !app_assoc. by apply prefix_app_r.
    + rewrite !Ok_bind, parseError_eq in Hf. injection Hf as <-. simpl.
      rewrite <- !app_assoc. by apply prefix_app_r.
  - destruct (WF_completeOptionValue config options HT st st Hwf Em
                eq_refl eq_refl) as (o & Ho & E).
    rewrite E in Hf. injection Hf as <-. simpl. by apply prefix_app_r.
  - case_bool_decide; injection Hf as <-; simpl; [done|].
    by apply prefix_app_r.
Qed.

Lemma step_unknown_option options i (name : jsstring) :
  name ≠ [] →
  options !! HAS_OWN = None →
  options !! name = None →
  step options i COLON
    (mkState [] (SearchParams.mk [] ∅) None name name false false false None)
  = Ok (mkState [Token.mk InvalidOptionName (name ++ [COLON]) suggest_none]
                (SearchParams.mk [] ∅)
                (Some (ParseError.mk i (js "unknown option")))
                [] [] false false false None).
Proof.
  intros Hne Hh Ho. unfold step. simpl.
  rewrite bool_decide_false by done.
  unfold obj_hasOwnProperty. rewrite Hh. simpl. rewrite Ho.
  by rewrite bool_decide_false by (by intros [? [=]]).
Qed.

(** X14: when the input starts with a plain word that is not a name of
    the table, followed by a colon, [parse] returns whatever follows; its
    first token is the word and the colon as an InvalidOptionName and its
    error is the unknown option at the index of the colon.  (The table has
    its [hasOwnProperty] method.) *)
Theorem unknown_option_is_reported config (name : jsstring) s :
  make_options config !! HAS_OWN = None →
  make_options config !! name = None →
  name ≠ [] → Forall plain name →
  ∃ r, parse (name ++ COLON :: s) config = Ok r
       ∧ ParseResult.error r
         = Some (ParseError.mk (length name) (js "unknown option"))
       ∧ ParseResult.tokens r !! 0%nat
         = Some (Token.mk InvalidOptionName (name ++ [COLON]) suggest_none).
Proof.
  intros Hh Ho Hne Hplain.
  pose proof (make_options_Table config) as HT.
  set (st2 := mkState
                [Token.mk InvalidOptionName (name ++ [COLON]) suggest_none]
                (SearchParams.mk [] ∅)
                (Some (ParseError.mk (length name) (js "unknown option")))
                [] [] false false false None).
  assert (loop (make_options config) 0 (name ++ [COLON]) initial = Ok st2)
    as Hl2.
  { rewrite loop_app, loop_plain by done. rewrite Ok_bind, loop_cons.
    change (with_currentValue _ _)
      with (mkState [] (SearchParams.mk [] ∅) None name name
                    false false false None).
    rewrite step_unknown_option by done. by rewrite Nat.add_0_r. }
  assert (WF (make_options config) st2) as Hwf2
    by (eapply loop_WF; [done|apply WF_initial|done]).
  destruct (parse (name ++ COLON :: s) config) as [r|x] eqn:E.
  - exists r. split; [done|].
    apply parse_Ok in E as (st & st' & Hl & Hf & Hwf & _ & _ & ->). simpl.
    replace (name ++ COLON :: s) with ((name ++ [COLON]) ++ s) in Hl
      by by rewrite <- app_assoc.
    destruct (prefix_state config _ s st2 st Hl2 Hl) as [_ Hl'].
    split.
    + apply (finish_error config _ HT (length (name ++ COLON :: s)) st st');
        [done..|].
      by apply (loop_error config _ HT (length (name ++ [COLON])) s st2 st).
    + assert (tokens st2 `prefix_of` tokens st') as [rest ->].
      { etrans; [by eapply loop_tokens_grow|by eapply finish_tokens_grow]. }
      done.
  - exfalso. apply parse_Throw in E as (_ & _ & o & Hin & Hn).
    assert (make_options config !! HAS_OWN ≠ None); [|done].
    destruct (schema_name_in_table config o Hin) as [o' Ho'].
    + rewrite Hn. discriminate.
    + rewrite Hn in Ho'. by rewrite Ho'.
Qed.

(** X14 at [x:1] with the schema of the option [tag]. *)
Lemma unknown_option_is_reported_witness :
  ∃ r, parse (js "x" ++ COLON :: js "1") [tag_single] = Ok r
       ∧ ParseResult.error r
         = Some (ParseError.mk (length (js "x")) (js "unknown option"))
       ∧ ParseResult.tokens r !! 0%nat
         = Some (Token.mk InvalidOptionName (js "x" ++ [COLON])
                          suggest_none).
Proof.
  apply (unknown_option_is_reported [tag_single] (js "x") (js "1")).
  - by vm_compute.
  - by vm_compute.
  - discriminate.
  - repeat constructor; by vm_compute.
Defined.

(** ** The first error recorded is the one reported *)

(** X15: [error] holds the first error recorded: once the scan of a
    prefix of the input has left an error, a later call of [parseError]
    changes nothing, [parse] on any input with that prefix reports that
    error whenever it returns, and it does return whenever the table of
    options has its [hasOwnProperty] method (no option of the schema has
    that name) or the rest of the input has no colon. *)
Theorem first_error_is_kept config p s st e :
  loop (make_options config) 0 p initial = Ok st →
  error st = Some e →
  (∀ position text, parseError position text st = st)
  ∧ (∀ r, parse (p ++ s) config = Ok r → ParseResult.error r = Some e)
  ∧ (make_options config !! HAS_OWN = None ∨ COLON ∉ s →
     ∃ r, parse (p ++ s) config = Ok r ∧ ParseResult.error r = Some e).
Proof.
  intros Hp He.
  pose proof (make_options_Table config) as HT.
  assert (WF (make_options config) st) as Hwf
    by (eapply loop_WF; [done|apply WF_initial|done]).
  assert (∀ r, parse (p ++ s) config = Ok r → ParseResult.error r = Some e)
    as Hkept.
  { intros r (st1 & st2 & Hl & Hf & Hwf1 & _ & _ & ->)%parse_Ok. simpl.
    rewrite loop_app, Hp, Ok_bind in Hl.
    apply (finish_error config _ HT (length (p ++ s)) st1 st2); [done..|].
    by apply (loop_error config _ HT (length p + 0) s st st1). }
  split_and!; [intros; by eapply parseError_recorded|done|].
  intros Hs. destruct (parse (p ++ s) config) as [r|x] eqn:E.
  { exists r. split; [done|]. by apply Hkept. }
  exfalso. unfold parse in E. rewrite loop_app, Hp, Ok_bind in E.
  apply bind_Throw in E as [E|(st1 & Hl & E)].
  - apply (loop_Throw config _ HT) in E as (_ & Hc & Hh); [|done].
    destruct Hs as [Hs|Hs]; [|done]. rewrite Hs in Hh. by destruct Hh.
  - assert (WF (make_options config) st1) as Hwf1
      by (eapply loop_WF; [done|apply Hwf|done]).
    destruct (finish_Ok config _ HT (length (p ++ s)) st1 Hwf1)
      as (st2 & Hf & _).
    by rewrite Hf in E.
Qed.

(** X15 at the input of a backslash, a space and an unterminated quoted
    [x]: the stray backslash at 0 is reported, the missing quotation mark
    at the end is not. *)
Lemma first_error_is_kept_witness :
  (∀ position text, parseError position text after_backslash
                    = after_backslash)
  ∧ (∀ r, parse ([BACKSLASH] ++ SPACE :: QUOTE :: js "x") [] = Ok r →
          ParseResult.error r
          = Some (ParseError.mk 0 (js "unexpected escape character")))
  ∧ (make_options [] !! HAS_OWN = None ∨ COLON ∉ SPACE :: QUOTE :: js "x" →
     ∃ r, parse ([BACKSLASH] ++ SPACE :: QUOTE :: js "x") [] = Ok r
          ∧ ParseResult.error r
            = Some (ParseError.mk 0 (js "unexpected escape character"))).
Proof.
  apply (first_error_is_kept [] [BACKSLASH] (SPACE :: QUOTE :: js "x")
           after_backslash).
  - reflexivity.
  - reflexivity.
Defined.
